(** * Sync3: the sliding-sync engine of hydrogen-web

    A shallow embedding of [Sync3] (the sync v3 request loop and the
    reconciliation of the server's positional operations against the
    index -> room id map), together with the properties of it that the
    specification states.

    Conventions of the embedding.
    - JS numbers used as list positions are integers, modelled as [Z].  The
      reconciler is given twice: first counting in exact integers, then with
      the arithmetic of the code's numbers (doubles), under which a loop
      whose counter passes [2^53] need not end.  On positions that are safe
      integers the two agree, and the first is what the sync loop runs.
    - The index map is a JS object.  Its keys are the decimal spellings of the
      positions, which is injective on integers, so the object is a finite map
      keyed by [Z].  A key may be present and hold [undefined] (the shift loops
      store the result of reading an absent key), hence values are
      [option string] with [None] for [undefined]; reading an absent key also
      gives [undefined].
    - Optional fields of an interface are [option]s; [None] is [undefined]. *)

From stdpp Require Import gmap strings list fin_maps.

Set Warnings "-register-all".

Local Open Scope Z_scope.

(** ** Response types *)

(** Payloads typed [any] in the source: opaque JSON. *)
Inductive json :=
| JNull
| JBool (b : bool)
| JNum (z : Z)
| JStr (s : string)
| JArr (items : list json)
| JObj (fields : list (string * json)).

Record RoomResponse := {
  room_id : string;
  name : string;
  required_state : list json;
  timeline : list json;
  notification_count : Z;
  highlight_count : Z;
}.

(** [interface Op]; the field [list] is spelled [list_no]. *)
Record Op := {
  list_no : Z;
  op : string;
  range : option (list Z);
  rooms : option (list RoomResponse);
  index : option Z;
  room : option RoomResponse;
}.

Record Sync3Response := {
  ops : list Op;
  counts : list Z;
  pos : Z;
}.

(** [type IndexToRoomId = {[index: string]: string}] *)
Abbreviation IndexToRoomId := (gmap Z (option string)).

(** ** JS object primitives on the index map *)

(** [obj[k]] *)
Definition js_get (obj : IndexToRoomId) (k : Z) : option string :=
  match obj !! k with
  | Some v => v
  | None => None
  end.

(** [obj[k] = v] *)
Definition js_set (k : Z) (v : option string) (obj : IndexToRoomId) : IndexToRoomId :=
  <[k := v]> obj.

(** [delete obj[k]] *)
Definition js_delete (k : Z) (obj : IndexToRoomId) : IndexToRoomId :=
  delete k obj.

(** Truthiness of a value read from the map: [undefined] and the empty string
    are falsy, every other string is truthy. *)
Definition truthy (v : option string) : bool :=
  match v with
  | Some EmptyString => false
  | Some (String _ _) => true
  | None => false
  end.

(** ** Range tracker *)

(** [r[0] <= i && i <= r[1]]; a comparison with a missing bound is false. *)
Definition range_covers (r : list Z) (i : Z) : bool :=
  match r !! 0%nat, r !! 1%nat with
  | Some lo, Some hi => (lo <=? i) && (i <=? hi)
  | _, _ => false
  end.

Definition indexInRange (ranges : list (list Z)) (i : Z) : bool :=
  foldl (fun isInRange r => if range_covers r i then true else isInRange)
        false ranges.

(** ** The op reconciler, [processOps] *)

(** The three locals of [processOps]. *)
Record PState := {
  indexToRoomID : IndexToRoomId;
  roomUpdates : list RoomResponse;
  gapIndex : Z;
}.

(** The loop of SYNC: [for (j = startIndex; j <= hi; j++)], counting in
    exact integers.  The fuel bounds the number of iterations;
    [hi - startIndex + 1] is always enough.  The
    test [!r] fails only past the end of [rooms]: a room is an object, and
    objects are truthy. *)
Fixpoint sync_loop (fuel : nat) (startIndex hi : Z) (rs : list RoomResponse)
    (j : Z) (m : IndexToRoomId) (ups : list RoomResponse)
    : IndexToRoomId * list RoomResponse :=
  match fuel with
  | O => (m, ups)
  | S fuel' =>
    if j <=? hi then
      match rs !! Z.to_nat (j - startIndex) with
      | None => (m, ups)
      | Some r =>
        sync_loop fuel' startIndex hi rs (j + 1)
                  (js_set j (Some (room_id r)) m) (ups ++ [r])
      end
    else (m, ups)
  end.

(** The loop of INVALIDATE: [for (j = startIndex; j <= hi; j++)]. *)
Fixpoint invalidate_loop (fuel : nat) (hi : Z) (j : Z) (m : IndexToRoomId)
    : IndexToRoomId :=
  match fuel with
  | O => m
  | S fuel' =>
    if j <=? hi then invalidate_loop fuel' hi (j + 1) (js_delete j m)
    else m
  end.

(** INSERT with the gap further down the list:
    [for (j = gapIndex; j > op.index; j--)]. *)
Fixpoint shift_right (fuel : nat) (ranges : list (list Z)) (idx : Z) (j : Z)
    (m : IndexToRoomId) : IndexToRoomId :=
  match fuel with
  | O => m
  | S fuel' =>
    if j >? idx then
      shift_right fuel' ranges idx (j - 1)
        (if indexInRange ranges j then js_set j (js_get m (j - 1)) m else m)
    else m
  end.

(** INSERT with the gap further up the list:
    [for (j = gapIndex; j < op.index; j++)]. *)
Fixpoint shift_left (fuel : nat) (ranges : list (list Z)) (idx : Z) (j : Z)
    (m : IndexToRoomId) : IndexToRoomId :=
  match fuel with
  | O => m
  | S fuel' =>
    if j <? idx then
      shift_left fuel' ranges idx (j + 1)
        (if indexInRange ranges j then js_set j (js_get m (j + 1)) m else m)
    else m
  end.

(** The shift an INSERT at [idx] performs around the gap [gap]. *)
Definition shift (ranges : list (list Z)) (gap idx : Z) (m : IndexToRoomId)
    : IndexToRoomId :=
  if gap >? idx then shift_right (Z.to_nat (gap - idx)) ranges idx gap m
  else if gap <? idx then shift_left (Z.to_nat (idx - gap)) ranges idx gap m
  else m.

Definition op_SYNC (o : Op) (st : PState) : PState :=
  match range o, rooms o with
  | Some rg, Some rs =>
    match rg !! 0%nat, rg !! 1%nat with
    | Some startIndex, Some hi =>
      let '(m, ups) :=
        sync_loop (Z.to_nat (hi - startIndex + 1)) startIndex hi rs startIndex
                  (indexToRoomID st) (roomUpdates st) in
      {| indexToRoomID := m; roomUpdates := ups; gapIndex := gapIndex st |}
    | _, _ => st
    end
  | _, _ => st
  end.

Definition op_INVALIDATE (o : Op) (st : PState) : PState :=
  match range o with
  | Some rg =>
    match rg !! 0%nat, rg !! 1%nat with
    | Some startIndex, Some hi =>
      {| indexToRoomID :=
           invalidate_loop (Z.to_nat (hi - startIndex + 1)) hi startIndex
                           (indexToRoomID st);
         roomUpdates := roomUpdates st;
         gapIndex := gapIndex st |}
    | _, _ => st
    end
  | None => st
  end.

Definition op_INSERT (ranges : list (list Z)) (o : Op) (st : PState) : PState :=
  match index o, room o with
  | Some idx, Some rm =>
    let assign m :=
      {| indexToRoomID := js_set idx (Some (room_id rm)) m;
         roomUpdates := roomUpdates st ++ [rm];
         gapIndex := gapIndex st |} in
    if truthy (js_get (indexToRoomID st) idx) then
      if gapIndex st <? 0 then st
      else assign (shift ranges (gapIndex st) idx (indexToRoomID st))
    else assign (indexToRoomID st)
  | _, _ => st
  end.

Definition op_DELETE (o : Op) (st : PState) : PState :=
  match index o with
  | Some idx =>
    {| indexToRoomID := js_delete idx (indexToRoomID st);
       roomUpdates := roomUpdates st;
       gapIndex := idx |}
  | None => st
  end.

Definition op_UPDATE (o : Op) (st : PState) : PState :=
  match index o, room o with
  | Some _, Some rm =>
    {| indexToRoomID := indexToRoomID st;
       roomUpdates := roomUpdates st ++ [rm];
       gapIndex := gapIndex st |}
  | _, _ => st
  end.

(** One turn of the [for] loop over [ops]: the [switch (op.op)]. *)
Definition process_op (ranges : list (list Z)) (st : PState) (o : Op) : PState :=
  if String.eqb (op o) "SYNC" then op_SYNC o st
  else if String.eqb (op o) "INVALIDATE" then op_INVALIDATE o st
  else if String.eqb (op o) "INSERT" then op_INSERT ranges o st
  else if String.eqb (op o) "DELETE" then op_DELETE o st
  else if String.eqb (op o) "UPDATE" then op_UPDATE o st
  else st.

Definition process_from (ranges : list (list Z)) (st : PState) (os : list Op)
    : PState :=
  foldl (process_op ranges) st os.

(** [processOps] as a function of the two fields of [this] it reads: the
    tracked ranges and the committed index map. *)
Definition init_state (m : IndexToRoomId) : PState :=
  {| indexToRoomID := m; roomUpdates := []; gapIndex := -1 |}.

Definition processOps (ranges : list (list Z)) (roomIndexToRoomId : IndexToRoomId)
    (os : list Op) : IndexToRoomId * list RoomResponse :=
  let st := process_from ranges (init_state roomIndexToRoomId) os in
  (indexToRoomID st, roomUpdates st).

(** ** The engine instance and the object store

    [processOps] is a method: it reads [this.roomIndexToRoomId], a reference to
    an object, and works on a spread copy of it.  To speak about what the
    method does to the committed map, objects live in a store and the engine
    holds a reference; every write of the method goes through the reference of
    the local [indexToRoomID]. *)

Abbreviation loc := positive.
Abbreviation heap := (gmap positive (gmap Z (option string))).

Inductive SyncStatus := InitialSync | Syncing | Stopped.

#[global] Instance SyncStatus_eq_dec : EqDecision SyncStatus.
Proof. solve_decision. Defined.

Module Err.
(** What the loop looks at in a caught error: [err.name]. *)
Record t := { name : string }.
End Err.

Record Sync3 := {
  ranges : list (list Z);
  roomIndexToRoomId : loc;
  status : SyncStatus;
  currentRequest : option nat;
  error : option Err.t;
}.

Definition set_status (v : SyncStatus) (this : Sync3) : Sync3 :=
  {| ranges := ranges this; roomIndexToRoomId := roomIndexToRoomId this;
     status := v; currentRequest := currentRequest this; error := error this |}.

Definition set_currentRequest (v : option nat) (this : Sync3) : Sync3 :=
  {| ranges := ranges this; roomIndexToRoomId := roomIndexToRoomId this;
     status := status this; currentRequest := v; error := error this |}.

Definition set_error (v : option Err.t) (this : Sync3) : Sync3 :=
  {| ranges := ranges this; roomIndexToRoomId := roomIndexToRoomId this;
     status := status this; currentRequest := currentRequest this; error := v |}.

(** [ref[k]] *)
Definition heap_get (h : heap) (l : loc) (k : Z) : option string :=
  match h !! l with
  | Some obj => js_get obj k
  | None => None
  end.

(** [ref[k] = v] *)
Definition heap_set (l : loc) (k : Z) (v : option string) (h : heap) : heap :=
  alter (js_set k v) l h.

(** [delete ref[k]] *)
Definition heap_delete (l : loc) (k : Z) (h : heap) : heap :=
  alter (js_delete k) l h.

(** [{ ...src }]: a new object with the own properties of [src]. *)
Definition heap_spread (src : loc) (h : heap) : loc * heap :=
  let l := fresh (dom h) in
  (l, <[l := default ∅ (h !! src)]> h).

(** The constructor, as far as the modelled fields go. *)
Definition new_Sync3 (h : heap) : Sync3 * heap :=
  let l := fresh (dom h) in
  ({| ranges := [[0; 99]]; roomIndexToRoomId := l; status := Stopped;
      currentRequest := None; error := None |},
   <[l := ∅]> h).

(** The locals of [processOps], with [indexToRoomID] a reference. *)
Record HState := {
  h_store : heap;
  h_roomUpdates : list RoomResponse;
  h_gapIndex : Z;
}.

Fixpoint sync_loop_h (fuel : nat) (startIndex hi : Z) (rs : list RoomResponse)
    (j : Z) (l : loc) (h : heap) (ups : list RoomResponse)
    : heap * list RoomResponse :=
  match fuel with
  | O => (h, ups)
  | S fuel' =>
    if j <=? hi then
      match rs !! Z.to_nat (j - startIndex) with
      | None => (h, ups)
      | Some r =>
        sync_loop_h fuel' startIndex hi rs (j + 1) l
                    (heap_set l j (Some (room_id r)) h) (ups ++ [r])
      end
    else (h, ups)
  end.

Fixpoint invalidate_loop_h (fuel : nat) (hi : Z) (j : Z) (l : loc) (h : heap)
    : heap :=
  match fuel with
  | O => h
  | S fuel' =>
    if j <=? hi then invalidate_loop_h fuel' hi (j + 1) l (heap_delete l j h)
    else h
  end.

Fixpoint shift_right_h (fuel : nat) (rgs : list (list Z)) (idx : Z) (j : Z)
    (l : loc) (h : heap) : heap :=
  match fuel with
  | O => h
  | S fuel' =>
    if j >? idx then
      shift_right_h fuel' rgs idx (j - 1) l
        (if indexInRange rgs j then heap_set l j (heap_get h l (j - 1)) h else h)
    else h
  end.

Fixpoint shift_left_h (fuel : nat) (rgs : list (list Z)) (idx : Z) (j : Z)
    (l : loc) (h : heap) : heap :=
  match fuel with
  | O => h
  | S fuel' =>
    if j <? idx then
      shift_left_h fuel' rgs idx (j + 1) l
        (if indexInRange rgs j then heap_set l j (heap_get h l (j + 1)) h else h)
    else h
  end.

Definition shift_h (rgs : list (list Z)) (gap idx : Z) (l : loc) (h : heap)
    : heap :=
  if gap >? idx then shift_right_h (Z.to_nat (gap - idx)) rgs idx gap l h
  else if gap <? idx then shift_left_h (Z.to_nat (idx - gap)) rgs idx gap l h
  else h.

Definition process_op_h (this : Sync3) (l : loc) (st : HState) (o : Op)
    : HState :=
  if String.eqb (op o) "SYNC" then
    match range o, rooms o with
    | Some rg, Some rs =>
      match rg !! 0%nat, rg !! 1%nat with
      | Some startIndex, Some hi =>
        let '(h, ups) :=
          sync_loop_h (Z.to_nat (hi - startIndex + 1)) startIndex hi rs
                      startIndex l (h_store st) (h_roomUpdates st) in
        {| h_store := h; h_roomUpdates := ups; h_gapIndex := h_gapIndex st |}
      | _, _ => st
      end
    | _, _ => st
    end
  else if String.eqb (op o) "INVALIDATE" then
    match range o with
    | Some rg =>
      match rg !! 0%nat, rg !! 1%nat with
      | Some startIndex, Some hi =>
        {| h_store :=
             invalidate_loop_h (Z.to_nat (hi - startIndex + 1)) hi startIndex
                               l (h_store st);
           h_roomUpdates := h_roomUpdates st;
           h_gapIndex := h_gapIndex st |}
      | _, _ => st
      end
    | None => st
    end
  else if String.eqb (op o) "INSERT" then
    match index o, room o with
    | Some idx, Some rm =>
      let assign h :=
        {| h_store := heap_set l idx (Some (room_id rm)) h;
           h_roomUpdates := h_roomUpdates st ++ [rm];
           h_gapIndex := h_gapIndex st |} in
      if truthy (heap_get (h_store st) l idx) then
        if h_gapIndex st <? 0 then st
        else assign (shift_h (ranges this) (h_gapIndex st) idx l (h_store st))
      else assign (h_store st)
    | _, _ => st
    end
  else if String.eqb (op o) "DELETE" then
    match index o with
    | Some idx =>
      {| h_store := heap_delete l idx (h_store st);
         h_roomUpdates := h_roomUpdates st;
         h_gapIndex := idx |}
    | None => st
    end
  else if String.eqb (op o) "UPDATE" then
    match index o, room o with
    | Some _, Some rm =>
      {| h_store := h_store st;
         h_roomUpdates := h_roomUpdates st ++ [rm];
         h_gapIndex := h_gapIndex st |}
    | _, _ => st
    end
  else st.

(** The method [processOps]: returns the reference of the new map, the
    updates, and the store it leaves behind. *)
Definition processOps_h (this : Sync3) (h : heap) (os : list Op)
    : loc * list RoomResponse * heap :=
  let '(l, h0) := heap_spread (roomIndexToRoomId this) h in
  let st := foldl (process_op_h this l)
              {| h_store := h0; h_roomUpdates := []; h_gapIndex := -1 |} os in
  (l, h_roomUpdates st, h_store st).

(** [prepareResponse]: its body is commented out in the source. *)
Definition prepareResponse (this : Sync3) (h : heap)
    (updates : list RoomResponse) : heap := h.

(** [processResponse]: the result of [processOps] is not committed to
    [this.roomIndexToRoomId] (a TODO in the source). *)
Definition processResponse (this : Sync3) (h : heap) (resp : Sync3Response)
    : heap :=
  let '(indexToRoom, updates, h') := processOps_h this h (ops resp) in
  prepareResponse this h' updates.

(** ** Request types *)

Module Req.
Record Sync3List := {
  rooms : list (list Z);
  timeline_limit : option Z;
  required_state : option (list (list string));
  sort : option (list string);
}.

Record Sync3RequestBody := {
  session_id : string;
  lists : list Sync3List;
}.
End Req.

(** ** The sync loop

    [syncLoop] is an [async] function: between two of its [await]s other code
    of the page runs.  One turn of its [while] loop is a function of the
    loop's state and of what the environment does during that turn: how the
    request ends, and whether [stop()] is called while the loop is suspended
    (and at which [await]).  The loop records what it does to the outside (the
    calls of [sleep], of [hsApi.sync3] and of [abort]) in a trace. *)

(** [Delay] is [sleep(100)], [Request] is [hsApi.sync3(requestBody, pos)],
    [Backoff] is [sleep(secs * 1000)] and [AbortRequest] is
    [currentRequest.abort()]. *)
Inductive Action :=
| Delay (ms : Z)
| Request (body : Req.Sync3RequestBody) (p : option Z)
| Backoff (ms : Z)
| AbortRequest (req : nat).

(** How the [try] block of a turn ends.  [ResponseFails]: [sync3] or
    [response()] throws.  [Responds]: a response arrives and is processed.
    [ProcessFails]: a response arrives and [processResponse] throws; on a
    response of the declared type it does not, so this is the case of a
    payload that does not have the declared shape, which the [catch] block
    handles like any other error.  A response with a position past the safe
    integers, on which [processResponse] may not return, ends the run: no
    turn follows it. *)
Inductive Outcome :=
| ResponseFails (err : Err.t)
| ProcessFails (err : Err.t)
| Responds (resp : Sync3Response).

Inductive AwaitPoint := AtDelay | AtRequest | AtProcess | AtBackoff.

#[global] Instance AwaitPoint_eq_dec : EqDecision AwaitPoint.
Proof. solve_decision. Defined.

(** What the environment does during one turn.  [call_throws] tells, for a
    [ResponseFails] turn, that the error is thrown by the call of
    [hsApi.sync3] itself rather than by [response()].  [stop_at] is the
    [await] at which [stop()] is called, if it is called.  The environment
    calls no other method of the engine while a loop runs: a [start()] after
    a [stop()], which would launch a second loop next to the suspended one,
    is outside these runs. *)
Record Event := {
  outcome : Outcome;
  call_throws : bool;
  stop_at : option AwaitPoint;
}.

(** [hsApi.sync3(requestBody, pos)] throws. *)
Definition sync3_throws (ev : Event) : bool :=
  match outcome ev with
  | ResponseFails _ => call_throws ev
  | _ => false
  end.

(** The engine, the store, and the locals of [syncLoop]: the parameter [pos],
    [backoffCounter] and [sessionId]; [running] is false once the function
    has returned. *)
Record LoopState := {
  this : Sync3;
  store : heap;
  loop_pos : option Z;
  backoffCounter : Z;
  sessionId : string;
  running : bool;
  trace : list Action;
}.

Definition with_this (f : Sync3 -> Sync3) (s : LoopState) : LoopState :=
  {| this := f (this s); store := store s; loop_pos := loop_pos s;
     backoffCounter := backoffCounter s; sessionId := sessionId s;
     running := running s; trace := trace s |}.

Definition with_store (h : heap) (s : LoopState) : LoopState :=
  {| this := this s; store := h; loop_pos := loop_pos s;
     backoffCounter := backoffCounter s; sessionId := sessionId s;
     running := running s; trace := trace s |}.

Definition with_pos (p : option Z) (s : LoopState) : LoopState :=
  {| this := this s; store := store s; loop_pos := p;
     backoffCounter := backoffCounter s; sessionId := sessionId s;
     running := running s; trace := trace s |}.

Definition with_backoffCounter (c : Z) (s : LoopState) : LoopState :=
  {| this := this s; store := store s; loop_pos := loop_pos s;
     backoffCounter := c; sessionId := sessionId s;
     running := running s; trace := trace s |}.

Definition returned (s : LoopState) : LoopState :=
  {| this := this s; store := store s; loop_pos := loop_pos s;
     backoffCounter := backoffCounter s; sessionId := sessionId s;
     running := false; trace := trace s |}.

Definition emit (acts : list Action) (s : LoopState) : LoopState :=
  {| this := this s; store := store s; loop_pos := loop_pos s;
     backoffCounter := backoffCounter s; sessionId := sessionId s;
     running := running s; trace := trace s ++ acts |}.

(** [stop()] *)
Definition stop (eng : Sync3) : Sync3 * list Action :=
  match status eng with
  | Stopped => (eng, [])
  | _ =>
    let eng := set_status Stopped eng in
    match currentRequest eng with
    | Some r => (set_currentRequest None eng, [AbortRequest r])
    | None => (eng, [])
    end
  end.

(** [stop()] called by the environment while the loop is suspended at [p]. *)
Definition env_stop (p : AwaitPoint) (ev : Event) (s : LoopState) : LoopState :=
  if decide (stop_at ev = Some p) then
    let '(eng, acts) := stop (this s) in
    emit acts (with_this (fun _ => eng) s)
  else s.

(** The sticky parameters and the body of a request. *)
Definition request_list (eng : Sync3) (isFirstSync : bool) : Req.Sync3List :=
  if isFirstSync then
    {| Req.rooms := ranges eng;
       Req.timeline_limit := Some 20;
       Req.required_state := Some [["m.room.avatar"; EmptyString]];
       Req.sort := Some ["by_highlight_count"; "by_notification_count";
                         "by_recency"] |}
  else
    {| Req.rooms := ranges eng;
       Req.timeline_limit := None;
       Req.required_state := None;
       Req.sort := None |}.

Definition request_body (s : LoopState) (isFirstSync : bool)
    : Req.Sync3RequestBody :=
  {| Req.session_id := sessionId s;
     Req.lists := [request_list (this s) isFirstSync] |}.

(** The [catch] block. *)
Definition on_error (ev : Event) (err : Err.t) (s : LoopState) : LoopState :=
  if String.eqb (Err.name err) "AbortError" then
    match status (this s) with
    | Stopped => returned s
    | _ => s
    end
  else
    let c := backoffCounter s + 1 in
    let c := if c >? 5 then 5 else c in
    let secs := 2 ^ c in
    env_stop AtBackoff ev
      (emit [Backoff (secs * 1000)] (with_backoffCounter c s)).

(** The [try] block up to the two [await]s of the request: the fixed delay,
    the call of [hsApi.sync3] with the body built at the top of the turn and
    the current [pos], and the wait for the response.  When the call throws,
    [currentRequest] is not assigned (it keeps the handle of an earlier turn,
    if any) and control goes to the [catch] block at once. *)
Definition try_request (requestBody : Req.Sync3RequestBody) (ev : Event)
    (s : LoopState) : LoopState :=
  let s := env_stop AtDelay ev (emit [Delay 100] s) in
  let req := length (trace s) in
  let s := emit [Request requestBody (loop_pos s)] s in
  if sync3_throws ev then s
  else env_stop AtRequest ev (with_this (set_currentRequest (Some req)) s).

(** The rest of the [try] block once a response is there. *)
Definition on_response (isFirstSync : bool) (ev : Event) (resp : Sync3Response)
    (s : LoopState) : LoopState :=
  let s := with_backoffCounter 0 s in
  let s := with_store (processResponse (this s) (store s) resp) s in
  let s := env_stop AtProcess ev s in
  let s := with_pos (Some (pos resp)) s in
  if isFirstSync then with_this (set_status Syncing) s else s.

(** One turn of [while (this.status.get() !== SyncStatus.Stopped)], the test
    included. *)
Definition syncLoop_iter (s : LoopState) (ev : Event) : LoopState :=
  if negb (running s) then s
  else
    match status (this s) with
    | Stopped => returned s
    | st =>
      let isFirstSync := bool_decide (st = InitialSync) in
      let requestBody := request_body s isFirstSync in
      let s := try_request requestBody ev s in
      match outcome ev with
      | ResponseFails err => on_error ev err s
      | ProcessFails err =>
        on_error ev err (env_stop AtProcess ev (with_backoffCounter 0 s))
      | Responds resp => on_response isFirstSync ev resp s
      end
    end.

Definition syncLoop_run (s : LoopState) (evs : list Event) : LoopState :=
  foldl syncLoop_iter s evs.

(** [syncLoop(pos)] at its entry: the locals before the first turn. *)
Definition syncLoop (eng : Sync3) (h : heap) (p : option Z) (now : string)
    : LoopState :=
  {| this := eng; store := h; loop_pos := p; backoffCounter := 0;
     sessionId := now; running := true; trace := [] |}.

(** [start()]: nothing unless stopped; else the engine enters [InitialSync]
    and a loop is launched with no position. *)
Definition start (eng : Sync3) (h : heap) (now : string)
    : Sync3 * option LoopState :=
  match status eng with
  | Stopped =>
    let eng := set_status InitialSync (set_error None eng) in
    (eng, Some (syncLoop eng h None now))
  | _ => (eng, None)
  end.

(** The actions a run added to the trace, and the requests among actions. *)
Definition new_actions (s s' : LoopState) : list Action :=
  drop (length (trace s)) (trace s').

Definition requests (acts : list Action)
    : list (Req.Sync3RequestBody * option Z) :=
  omap (fun a => match a with Request b p => Some (b, p) | _ => None end) acts.

Definition backoffs (acts : list Action) : list Z :=
  omap (fun a => match a with Backoff ms => Some ms | _ => None end) acts.

Definition has_sticky (b : Req.Sync3RequestBody) : bool :=
  forallb (fun l => match Req.sort l, Req.timeline_limit l, Req.required_state l with
                    | Some _, Some _, Some _ => true
                    | _, _, _ => false
                    end) (Req.lists b).

Definition omits_sticky (b : Req.Sync3RequestBody) : bool :=
  forallb (fun l => match Req.sort l, Req.timeline_limit l, Req.required_state l with
                    | None, None, None => true
                    | _, _, _ => false
                    end) (Req.lists b).

(** ** Building operations and rooms for examples *)

Definition mkRoom (rid : string) : RoomResponse :=
  {| room_id := rid; name := rid; required_state := []; timeline := [];
     notification_count := 0; highlight_count := 0 |}.

Definition opSYNC (rg : list Z) (rs : list RoomResponse) : Op :=
  {| list_no := 0; op := "SYNC"; range := Some rg; rooms := Some rs;
     index := None; room := None |}.
Definition opINVALIDATE (rg : list Z) : Op :=
  {| list_no := 0; op := "INVALIDATE"; range := Some rg; rooms := None;
     index := None; room := None |}.
Definition opINSERT (i : Z) (r : RoomResponse) : Op :=
  {| list_no := 0; op := "INSERT"; range := None; rooms := None;
     index := Some i; room := Some r |}.
Definition opDELETE (i : Z) : Op :=
  {| list_no := 0; op := "DELETE"; range := None; rooms := None;
     index := Some i; room := None |}.
Definition opUPDATE (i : Z) (r : RoomResponse) : Op :=
  {| list_no := 0; op := "UPDATE"; range := None; rooms := None;
     index := Some i; room := Some r |}.

Definition map_of (l : list (Z * option string)) : IndexToRoomId := list_to_map l.

Definition example_map : IndexToRoomId :=
  map_of [(0, Some "a"); (1, Some "b"); (2, Some "c");
          (6, Some "d"); (7, Some "e"); (8, Some "f")].
Definition example_ranges : list (list Z) := [[0; 5]; [6; 8]].
Definition example_ops : list Op := [opDELETE 7; opINSERT 0 (mkRoom "g")].


(** The map the specification's worked example announces. *)
Definition announced_map : IndexToRoomId :=
  map_of [(0, Some "g"); (1, Some "a"); (2, Some "b"); (3, Some "c");
          (6, Some "d"); (8, Some "f")].

(** The map the code computes: [d] moves from 6 to 7 with the shift, and the
    positions 4, 5 and 6 hold [undefined], copied from their absent left
    neighbours. *)
Definition computed_map : IndexToRoomId :=
  map_of [(0, Some "g"); (1, Some "a"); (2, Some "b"); (3, Some "c");
          (4, None); (5, None); (6, None); (7, Some "d"); (8, Some "f")].

(** ** Vocabulary of the specification's operation table *)

Definition known_tag (tag : string) : bool :=
  existsb (String.eqb tag) ["SYNC"; "INVALIDATE"; "INSERT"; "DELETE"; "UPDATE"].

Definition absent {A} (f : option A) : bool :=
  match f with Some _ => false | None => true end.

(** An operation that lacks a field its tag requires. *)
Definition missing_required (o : Op) : bool :=
  if String.eqb (op o) "SYNC" then absent (range o) || absent (rooms o)
  else if String.eqb (op o) "INVALIDATE" then absent (range o)
  else if String.eqb (op o) "INSERT" then absent (index o) || absent (room o)
  else if String.eqb (op o) "DELETE" then absent (index o)
  else if String.eqb (op o) "UPDATE" then absent (index o) || absent (room o)
  else false.

(** An operation that is a DELETE carrying its index. *)
Definition is_delete (o : Op) : bool :=
  String.eqb (op o) "DELETE" && negb (absent (index o)).

(** What a SYNC writes, in closed form: the rooms [rs] at consecutive
    positions from [j] on. *)
Fixpoint write_rooms (j : Z) (rs : list RoomResponse) (m : IndexToRoomId)
    : IndexToRoomId :=
  match rs with
  | [] => m
  | r :: rs' => write_rooms (j + 1) rs' (js_set j (Some (room_id r)) m)
  end.

(** A turn whose request ends in an error other than a cancellation. *)
Definition is_failure (ev : Event) : bool :=
  match outcome ev with
  | ResponseFails err => negb (String.eqb (Err.name err) "AbortError")
  | _ => false
  end.

(** A turn whose request ends in a cancellation. *)
Definition is_cancellation (ev : Event) : bool :=
  match outcome ev with
  | ResponseFails err => String.eqb (Err.name err) "AbortError"
  | _ => false
  end.

(** The delay, in milliseconds, of the [k]-th consecutive failure. *)
Definition backoff_ms (k : Z) : Z := 2 ^ Z.min k 5 * 1000.

(** The engine is live: the loop function has not returned and the status is
    not [Stopped], so that the next turn passes the [while] test. *)
Definition live (s : LoopState) : bool :=
  running s && negb (bool_decide (status (this s) = Stopped)).

Definition quiet (acts : list Action) : Prop :=
  requests acts = [] /\ backoffs acts = [].

Definition stopped_during (pts : list AwaitPoint) (ev : Event) : bool :=
  match stop_at ev with
  | Some p => bool_decide (p ∈ pts)
  | None => false
  end.

Definition status_after (pts : list AwaitPoint) (ev : Event) (st : SyncStatus)
    : SyncStatus :=
  if stopped_during pts ev then Stopped else st.

(** The [await]s of the [try] block at which a turn is suspended before a
    response or an error is there. *)
Definition request_awaits (ev : Event) : list AwaitPoint :=
  if sync3_throws ev then [AtDelay] else [AtDelay; AtRequest].

(** The state a turn leaves, from the state it found: the session id is never
    assigned and the trace only grows. *)
Definition after (s : LoopState) (eng : Sync3) (h : heap) (p : option Z)
    (c : Z) (run : bool) (acts : list Action) : LoopState :=
  {| this := eng; store := h; loop_pos := p; backoffCounter := c;
     sessionId := sessionId s; running := run; trace := trace s ++ acts |}.

(** ** A freshly started engine and some events, for examples *)

Definition ex_engine : Sync3 := (new_Sync3 ∅).1.
Definition ex_heap : heap := (new_Sync3 ∅).2.

(** The loop [start()] launches on the fresh engine. *)
Definition ex_loop : LoopState :=
  syncLoop (set_status InitialSync (set_error None ex_engine)) ex_heap None
           "1635724800000".

Definition ev_network_error : Event :=
  {| outcome := ResponseFails {| Err.name := "ConnectionError" |};
     call_throws := false; stop_at := None |}.

Definition ev_abort : Event :=
  {| outcome := ResponseFails {| Err.name := "AbortError" |};
     call_throws := false; stop_at := None |}.

Definition ev_abort_by_stop : Event :=
  {| outcome := ResponseFails {| Err.name := "AbortError" |};
     call_throws := false; stop_at := Some AtRequest |}.

Definition ev_ok (p : Z) : Event :=
  {| outcome := Responds {| ops := []; counts := []; pos := p |};
     call_throws := false; stop_at := None |}.

(** A turn whose call of [hsApi.sync3] throws. *)
Definition ev_call_throws : Event :=
  {| outcome := ResponseFails {| Err.name := "ConnectionError" |};
     call_throws := true; stop_at := None |}.

(** A turn whose response arrives and whose processing throws. *)
Definition ev_process_throws : Event :=
  {| outcome := ProcessFails {| Err.name := "TypeError" |};
     call_throws := false; stop_at := None |}.

(** A turn during which [stop()] is not called and whose request fails or is
    cancelled. *)
Definition failed_turn (ev : Event) : Prop :=
  stop_at ev = None /\ (is_failure ev || is_cancellation ev) = true.

(** A turn during which [stop()] is not called, whose response arrives and
    whose processing throws an error that is not a cancellation. *)
Definition processing_failure (ev : Event) : Prop :=
  stop_at ev = None /\
  exists err, outcome ev = ProcessFails err /\
              String.eqb (Err.name err) "AbortError" = false.

(** The delays of [n] consecutive failures, in milliseconds. *)
Definition backoff_delays_ms (n : nat) : list Z :=
  backoff_ms <$> (Z.of_nat <$> seq 1 n).

(** The locals of the method, seen through the reference [l] into a store
    that is [h0] elsewhere, are the locals of the state-passing [processOps]. *)
Definition lift (l : loc) (h0 : heap) (st : PState) : HState :=
  {| h_store := <[l := indexToRoomID st]> h0;
     h_roomUpdates := roomUpdates st;
     h_gapIndex := gapIndex st |}.

Definition sync_two_rooms : list Op := [opSYNC [0; 1] [mkRoom "a"; mkRoom "b"]].

Definition four_rooms : IndexToRoomId :=
  map_of [(0, Some "a"); (1, Some "b"); (2, Some "c"); (3, Some "d")].

(** The [pos] of the last response processed among the turns [evs], or [p] if
    there is none. *)
Definition last_pos (p : option Z) (evs : list Event) : option Z :=
  foldl (fun p ev => match outcome ev with
                     | Responds resp => Some (pos resp)
                     | _ => p
                     end) p evs.

(** A turn during which [stop()] is called while the loop sleeps its fixed
    delay, and whose request is then answered. *)
Definition ev_ok_stopped_in_delay (p : Z) : Event :=
  {| outcome := Responds {| ops := []; counts := []; pos := p |};
     call_throws := false; stop_at := Some AtDelay |}.

(** A turn whose response carries a SYNC of two rooms. *)
Definition ev_sync_two_rooms : Event :=
  {| outcome := Responds {| ops := sync_two_rooms; counts := [2]; pos := 1 |};
     call_throws := false; stop_at := None |}.

(** ** The reconciler with the numbers of the code

    The definitions above count in exact integers.  In the code every number
    is an IEEE double: an integer whose absolute value is at most [2^53] is
    itself, a larger one is rounded to the nearest double (ties to the even
    mantissa), so that [j++] can leave [j] as it is and a loop may never
    end.  The definitions below are the loops and [processOps] with that
    arithmetic.  A loop that has not finished when its fuel is used up gives
    [None]; a loop that gives [None] for every fuel does not return (the loop
    of SYNC, which appends to the update list at every turn, then goes on
    until memory is exhausted).  On
    positions that are safe integers the two versions agree (lemmas
    [*_js_exact]).  Numbers that are not integers, and the overflow of a
    double to infinity, are left out. *)

Definition MAX_SAFE_INTEGER : Z := 9007199254740991.

(** [Number.isSafeInteger] *)
Definition safe_integer (z : Z) : Prop :=
  - MAX_SAFE_INTEGER <= z <= MAX_SAFE_INTEGER.

(** A position of a list: a safe integer that is not negative. *)
Definition list_position (z : Z) : Prop := 0 <= z <= MAX_SAFE_INTEGER.

(** The double nearest to the integer [z]. *)
Definition js_round (z : Z) : Z :=
  if Z.abs z <=? 9007199254740992 then z
  else
    let e := Z.log2 (Z.abs z) - 52 in
    let q := z / 2 ^ e in
    let r := z mod 2 ^ e in
    let half := 2 ^ (e - 1) in
    if r <? half then q * 2 ^ e
    else if half <? r then (q + 1) * 2 ^ e
    else if Z.even q then q * 2 ^ e
    else (q + 1) * 2 ^ e.

(** [a + b] and [a - b] on doubles. *)
Definition js_add (a b : Z) : Z := js_round (a + b).
Definition js_sub (a b : Z) : Z := js_round (a - b).

(** [array[x]] for an integer-valued [x]: [undefined] below zero and past the
    end. *)
Definition js_index {A} (l : list A) (x : Z) : option A :=
  if x <? 0 then None else l !! Z.to_nat x.

(** The loop of SYNC. *)
Fixpoint sync_loop_js (fuel : nat) (startIndex hi : Z) (rs : list RoomResponse)
    (j : Z) (m : IndexToRoomId) (ups : list RoomResponse)
    : option (IndexToRoomId * list RoomResponse) :=
  match fuel with
  | O => None
  | S fuel' =>
    if j <=? hi then
      match js_index rs (js_sub j startIndex) with
      | None => Some (m, ups)
      | Some r =>
        sync_loop_js fuel' startIndex hi rs (js_add j 1)
                     (js_set j (Some (room_id r)) m) (ups ++ [r])
      end
    else Some (m, ups)
  end.

(** The loop of INVALIDATE. *)
Fixpoint invalidate_loop_js (fuel : nat) (hi : Z) (j : Z) (m : IndexToRoomId)
    : option IndexToRoomId :=
  match fuel with
  | O => None
  | S fuel' =>
    if j <=? hi then invalidate_loop_js fuel' hi (js_add j 1) (js_delete j m)
    else Some m
  end.

(** The two loops of INSERT: [j--] reading [j - 1], and [j++] reading
    [j + 1]. *)
Fixpoint shift_right_js (fuel : nat) (rgs : list (list Z)) (idx : Z) (j : Z)
    (m : IndexToRoomId) : option IndexToRoomId :=
  match fuel with
  | O => None
  | S fuel' =>
    if j >? idx then
      shift_right_js fuel' rgs idx (js_sub j 1)
        (if indexInRange rgs j then js_set j (js_get m (js_sub j 1)) m else m)
    else Some m
  end.

Fixpoint shift_left_js (fuel : nat) (rgs : list (list Z)) (idx : Z) (j : Z)
    (m : IndexToRoomId) : option IndexToRoomId :=
  match fuel with
  | O => None
  | S fuel' =>
    if j <? idx then
      shift_left_js fuel' rgs idx (js_add j 1)
        (if indexInRange rgs j then js_set j (js_get m (js_add j 1)) m else m)
    else Some m
  end.

Definition shift_js (fuel : nat) (rgs : list (list Z)) (gap idx : Z)
    (m : IndexToRoomId) : option IndexToRoomId :=
  if gap >? idx then shift_right_js fuel rgs idx gap m
  else if gap <? idx then shift_left_js fuel rgs idx gap m
  else Some m.

(** One turn of the [for] loop over [ops]; [None] when an inner loop does not
    finish within [fuel] turns. *)
Definition process_op_js (fuel : nat) (rgs : list (list Z)) (st : PState)
    (o : Op) : option PState :=
  if String.eqb (op o) "SYNC" then
    match range o, rooms o with
    | Some rg, Some rs =>
      match rg !! 0%nat, rg !! 1%nat with
      | Some startIndex, Some hi =>
        match sync_loop_js fuel startIndex hi rs startIndex
                (indexToRoomID st) (roomUpdates st) with
        | Some (m, ups) =>
          Some {| indexToRoomID := m; roomUpdates := ups;
                  gapIndex := gapIndex st |}
        | None => None
        end
      | _, _ => Some st
      end
    | _, _ => Some st
    end
  else if String.eqb (op o) "INVALIDATE" then
    match range o with
    | Some rg =>
      match rg !! 0%nat, rg !! 1%nat with
      | Some startIndex, Some hi =>
        match invalidate_loop_js fuel hi startIndex (indexToRoomID st) with
        | Some m =>
          Some {| indexToRoomID := m; roomUpdates := roomUpdates st;
                  gapIndex := gapIndex st |}
        | None => None
        end
      | _, _ => Some st
      end
    | None => Some st
    end
  else if String.eqb (op o) "INSERT" then
    match index o, room o with
    | Some idx, Some rm =>
      let assign m :=
        {| indexToRoomID := js_set idx (Some (room_id rm)) m;
           roomUpdates := roomUpdates st ++ [rm];
           gapIndex := gapIndex st |} in
      if truthy (js_get (indexToRoomID st) idx) then
        if gapIndex st <? 0 then Some st
        else
          match shift_js fuel rgs (gapIndex st) idx (indexToRoomID st) with
          | Some m => Some (assign m)
          | None => None
          end
      else Some (assign (indexToRoomID st))
    | _, _ => Some st
    end
  else if String.eqb (op o) "DELETE" then Some (op_DELETE o st)
  else if String.eqb (op o) "UPDATE" then Some (op_UPDATE o st)
  else Some st.

Fixpoint process_from_js (fuel : nat) (rgs : list (list Z)) (st : PState)
    (os : list Op) : option PState :=
  match os with
  | [] => Some st
  | o :: os' =>
    match process_op_js fuel rgs st o with
    | Some st' => process_from_js fuel rgs st' os'
    | None => None
    end
  end.

(** [processOps] with the numbers of the code: [None] when it has not
    returned within [fuel] turns of one of its inner loops. *)
Definition processOps_js (fuel : nat) (rgs : list (list Z))
    (roomIndexToRoomId : IndexToRoomId) (os : list Op)
    : option (IndexToRoomId * list RoomResponse) :=
  match process_from_js fuel rgs (init_state roomIndexToRoomId) os with
  | Some st => Some (indexToRoomID st, roomUpdates st)
  | None => None
  end.

(** An operation whose numbers are positions the loops can count over: range
    bounds that are list positions, an index that is a safe integer. *)
Definition safe_positions (o : Op) : Prop :=
  (forall rg, range o = Some rg -> Forall list_position rg) /\
  (forall i, index o = Some i -> safe_integer i).

(** Fuel that is enough for any loop between two safe integers. *)
Definition enough_fuel : nat := Z.to_nat 18014398509481984.

Definition two_rooms : list RoomResponse := [mkRoom "a"; mkRoom "b"].

(** A SYNC and an INVALIDATE over the last safe position and the one after. *)
Definition sync_past_safe : Op :=
  opSYNC [9007199254740991; 9007199254740992] two_rooms.
Definition invalidate_past_safe : Op :=
  opINVALIDATE [9007199254740991; 9007199254740992].

(** ** Basic facts about the reconciler *)

Lemma processOps_unfold rgs m os :
  processOps rgs m os =
  (indexToRoomID (process_from rgs (init_state m) os),
   roomUpdates (process_from rgs (init_state m) os)).
Proof. reflexivity. Qed.

Lemma process_from_app ranges st os1 os2 :
  process_from ranges st (os1 ++ os2) =
  process_from ranges (process_from ranges st os1) os2.
Proof. unfold process_from. apply foldl_app. Qed.

Lemma process_from_cons ranges st o os :
  process_from ranges st (o :: os) =
  process_from ranges (process_op ranges st o) os.
Proof. reflexivity. Qed.

Lemma process_op_SYNC ranges st o :
  op o = "SYNC" -> process_op ranges st o = op_SYNC o st.
Proof. intros H. unfold process_op. rewrite H. reflexivity. Qed.

Lemma process_op_INVALIDATE ranges st o :
  op o = "INVALIDATE" -> process_op ranges st o = op_INVALIDATE o st.
Proof. intros H. unfold process_op. rewrite H. reflexivity. Qed.

Lemma process_op_INSERT ranges st o :
  op o = "INSERT" -> process_op ranges st o = op_INSERT ranges o st.
Proof. intros H. unfold process_op. rewrite H. reflexivity. Qed.

Lemma process_op_DELETE ranges st o :
  op o = "DELETE" -> process_op ranges st o = op_DELETE o st.
Proof. intros H. unfold process_op. rewrite H. reflexivity. Qed.

Lemma process_op_UPDATE ranges st o :
  op o = "UPDATE" -> process_op ranges st o = op_UPDATE o st.
Proof. intros H. unfold process_op. rewrite H. reflexivity. Qed.

Lemma js_get_delete_eq k m : js_get (js_delete k m) k = None.
Proof. unfold js_get, js_delete. by rewrite lookup_delete_eq. Qed.

Lemma js_get_set_eq k v m : js_get (js_set k v m) k = v.
Proof. unfold js_get, js_set. by rewrite lookup_insert_eq. Qed.

Lemma truthy_spec v :
  truthy v = true <-> exists s, v = Some s /\ s <> EmptyString.
Proof.
  destruct v as [[|a s]|]; simpl; split; try discriminate; try reflexivity.
  - intros (s & [= <-] & Hs). congruence.
  - intros _. exists (String a s). split; [reflexivity | discriminate].
  - intros (s & Hs & _). discriminate.
Qed.

Lemma process_op_unknown rgs st o :
  known_tag (op o) = false -> process_op rgs st o = st.
Proof.
  unfold known_tag, process_op. simpl. intros H.
  repeat (apply orb_false_elim in H as [-> H]). reflexivity.
Qed.

Lemma process_op_malformed rgs st o :
  missing_required o = true -> process_op rgs st o = st.
Proof.
  unfold missing_required, process_op, op_SYNC, op_INVALIDATE, op_INSERT,
    op_DELETE, op_UPDATE.
  repeat (case_match; [ destruct (range o), (rooms o), (index o), (room o);
                        simpl; try discriminate; reflexivity | ]).
  discriminate.
Qed.

Lemma process_op_gap rgs st o :
  gapIndex (process_op rgs st o) =
  if is_delete o then default (gapIndex st) (index o) else gapIndex st.
Proof.
  unfold is_delete, process_op, op_SYNC, op_INVALIDATE, op_INSERT, op_DELETE,
    op_UPDATE.
  destruct (String.eqb (op o) "DELETE") eqn:Hd.
  - apply String.eqb_eq in Hd. rewrite Hd. simpl.
    destruct (index o); reflexivity.
  - simpl. repeat case_match; reflexivity.
Qed.

Lemma process_from_gap_no_delete rgs st os :
  Forall (fun o => is_delete o = false) os ->
  gapIndex (process_from rgs st os) = gapIndex st.
Proof.
  intros H. revert st. induction H as [|o os Ho _ IH]; intros st; [done|].
  rewrite process_from_cons, IH, process_op_gap, Ho. reflexivity.
Qed.

Lemma process_op_inconsistent_insert rgs st o idx :
  op o = "INSERT" -> index o = Some idx ->
  truthy (js_get (indexToRoomID st) idx) = true -> gapIndex st < 0 ->
  process_op rgs st o = st.
Proof.
  intros Ho Hi Ht Hg. rewrite process_op_INSERT by done.
  unfold op_INSERT. rewrite Hi. destruct (room o); [|done].
  rewrite Ht. by rewrite (proj2 (Z.ltb_lt _ _) Hg).
Qed.

(** ** The loops terminate within their fuel

    Each loop is given as fuel the number of turns it can take at most; more
    fuel changes nothing, so the fuel never cuts a loop short. *)

Lemma sync_loop_fuel fuel : forall fuel' lo hi rs j m ups,
  (Z.to_nat (hi - j + 1) <= fuel)%nat -> (Z.to_nat (hi - j + 1) <= fuel')%nat ->
  sync_loop fuel lo hi rs j m ups = sync_loop fuel' lo hi rs j m ups.
Proof.
  induction fuel as [|fuel IH]; intros [|fuel'] lo hi rs j m ups H1 H2; simpl;
    try done; destruct (Z.leb_spec j hi); try done; try lia.
  destruct (rs !! Z.to_nat (j - lo)); [|done]. apply IH; lia.
Qed.

Lemma invalidate_loop_fuel fuel : forall fuel' hi j m,
  (Z.to_nat (hi - j + 1) <= fuel)%nat -> (Z.to_nat (hi - j + 1) <= fuel')%nat ->
  invalidate_loop fuel hi j m = invalidate_loop fuel' hi j m.
Proof.
  induction fuel as [|fuel IH]; intros [|fuel'] hi j m H1 H2; simpl;
    try done; destruct (Z.leb_spec j hi); try done; try lia.
  apply IH; lia.
Qed.

Lemma shift_right_fuel fuel : forall fuel' rgs idx j m,
  (Z.to_nat (j - idx) <= fuel)%nat -> (Z.to_nat (j - idx) <= fuel')%nat ->
  shift_right fuel rgs idx j m = shift_right fuel' rgs idx j m.
Proof.
  induction fuel as [|fuel IH]; intros [|fuel'] rgs idx j m H1 H2; simpl;
    try done; destruct (Z.gtb_spec j idx); try done; try lia.
  apply IH; lia.
Qed.

Lemma shift_left_fuel fuel : forall fuel' rgs idx j m,
  (Z.to_nat (idx - j) <= fuel)%nat -> (Z.to_nat (idx - j) <= fuel')%nat ->
  shift_left fuel rgs idx j m = shift_left fuel' rgs idx j m.
Proof.
  induction fuel as [|fuel IH]; intros [|fuel'] rgs idx j m H1 H2; simpl;
    try done; destruct (Z.ltb_spec j idx); try done; try lia.
  apply IH; lia.
Qed.

(** ** The worked example of the specification *)

(** C1, as the code has it.  From the map [{0:a,1:b,2:c,6:d,7:e,8:f}] with
    tracked ranges [[0,5],[6,8]], the batch [DELETE 7; INSERT 0 g] gives
    [{0:g,1:a,2:b,3:c,7:d,8:f}] and the update list [g]: every position from 1
    to the gap at 7 is in a tracked range and takes the value of its left
    neighbour, so [a], [b], [c] move up by one, [d] moves from 6 to 7, and the
    positions 4, 5 and 6 are left holding no room id ([undefined]). *)
Theorem processOps_worked_example :
  processOps example_ranges example_map example_ops = (computed_map, [mkRoom "g"]) /\
  (forall i, js_get computed_map i =
             js_get (map_of [(0, Some "g"); (1, Some "a"); (2, Some "b");
                             (3, Some "c"); (7, Some "d"); (8, Some "f")]) i).
Proof.
  split; [vm_compute; reflexivity|].
  intros i. unfold js_get, computed_map, map_of. simpl.
  do 9 (match goal with
        | |- context [ <[?k := _]> _ !! i ] =>
          destruct (decide (i = k)) as [->|]; [by vm_compute|]
        end;
        rewrite ?(lookup_insert_ne _ _ i) by done).
  by rewrite !lookup_empty.
Qed.

(** C1 as stated fails: the code does not produce the announced map; position
    7 holds [d] (the announced map has nothing there) and position 6 holds no
    room id (the announced map has [d] there). *)
Lemma processOps_worked_example_not_as_announced :
  fst (processOps example_ranges example_map example_ops) <> announced_map /\
  js_get (fst (processOps example_ranges example_map example_ops)) 7 = Some "d" /\
  js_get announced_map 7 = None /\
  js_get (fst (processOps example_ranges example_map example_ops)) 6 = None /\
  js_get announced_map 6 = Some "d".
Proof.
  split; [|by vm_compute].
  intros H. apply (f_equal (fun m => m !! 7)) in H. vm_compute in H.
  discriminate.
Qed.

(** ** DELETE then INSERT at one index, against UPDATE *)

Lemma processOps_delete_insert rgs m i r :
  processOps rgs m [opDELETE i; opINSERT i r] =
  (<[i := Some (room_id r)]> m, [r]).
Proof.
  unfold processOps, process_from, init_state. simpl.
  unfold process_op; simpl. unfold op_DELETE, op_INSERT; simpl.
  rewrite js_get_delete_eq. simpl.
  unfold js_set, js_delete. by rewrite insert_delete_eq.
Qed.

Lemma processOps_update rgs m i r :
  processOps rgs m [opUPDATE i r] = (m, [r]).
Proof. reflexivity. Qed.

(** C3, as the code has it.  [DELETE i; INSERT i r] maps [i] to the id of [r]
    and leaves every other index alone; [UPDATE i r] leaves the whole map
    alone.  Both give the update list [r].  So the two batches agree on the
    update list and on every index other than [i], and they agree altogether
    exactly when [i] already held the id of [r]. *)
Theorem delete_insert_versus_update rgs m i r :
  processOps rgs m [opDELETE i; opINSERT i r] =
    (<[i := Some (room_id r)]> m, [r]) /\
  processOps rgs m [opUPDATE i r] = (m, [r]) /\
  (processOps rgs m [opDELETE i; opINSERT i r] = processOps rgs m [opUPDATE i r]
   <-> m !! i = Some (Some (room_id r))).
Proof.
  rewrite processOps_delete_insert, processOps_update.
  split; [done|]. split; [done|]. split.
  - intros [= H]. rewrite <- H. apply lookup_insert_eq.
  - intros H. by rewrite insert_id.
Qed.

(** C3 as stated fails: from [{0:a}], [DELETE 0; INSERT 0 g] ends with [g] at
    0 and [UPDATE 0 g] ends with [a] at 0. *)
Lemma delete_insert_is_not_update :
  processOps [[0; 99]] (map_of [(0, Some "a")])
             [opDELETE 0; opINSERT 0 (mkRoom "g")]
  <> processOps [[0; 99]] (map_of [(0, Some "a")]) [opUPDATE 0 (mkRoom "g")].
Proof.
  intros H. apply (f_equal (fun p => fst p !! 0)) in H. vm_compute in H.
  discriminate.
Qed.

(** ** Skipped operations *)

Lemma processOps_skip rgs m pre o post :
  process_op rgs (process_from rgs (init_state m) pre) o =
    process_from rgs (init_state m) pre ->
  processOps rgs m (pre ++ o :: post) = processOps rgs m (pre ++ post).
Proof.
  intros H. rewrite !processOps_unfold, !process_from_app, process_from_cons.
  by rewrite H.
Qed.


(** ** The gap index outlives the INSERT that uses it *)

Lemma op_INSERT_shifts rgs st o i r s :
  op o = "INSERT" -> index o = Some i -> room o = Some r ->
  indexToRoomID st !! i = Some (Some s) -> s <> EmptyString ->
  0 <= gapIndex st ->
  process_op rgs st o =
  {| indexToRoomID :=
       js_set i (Some (room_id r)) (shift rgs (gapIndex st) i (indexToRoomID st));
     roomUpdates := roomUpdates st ++ [r];
     gapIndex := gapIndex st |}.
Proof.
  intros Ho Hi Hr Hm Hs Hg. rewrite process_op_INSERT by done.
  unfold op_INSERT. rewrite Hi, Hr.
  assert (Ht : truthy (js_get (indexToRoomID st) i) = true).
  { apply truthy_spec. exists s. unfold js_get. by rewrite Hm. }
  rewrite Ht. by rewrite (proj2 (Z.ltb_ge _ _) Hg).
Qed.


(** ** SYNC *)

Lemma sync_loop_closed fuel lo hi rs (k : nat) m ups :
  sync_loop fuel lo hi rs (lo + Z.of_nat k) m ups =
  (write_rooms (lo + Z.of_nat k)
     (take (fuel `min` Z.to_nat (hi - (lo + Z.of_nat k) + 1)) (drop k rs)) m,
   ups ++ take (fuel `min` Z.to_nat (hi - (lo + Z.of_nat k) + 1)) (drop k rs)).
Proof.
  revert k m ups. induction fuel as [|fuel IH]; intros k m ups; simpl.
  { by rewrite app_nil_r. }
  destruct (Z.leb_spec (lo + Z.of_nat k) hi) as [Hle|Hgt].
  - replace (Z.to_nat (lo + Z.of_nat k - lo)) with k by lia.
    destruct (rs !! k) as [r|] eqn:Hr.
    + rewrite (drop_S _ _ _ Hr).
      replace (Z.to_nat (hi - (lo + Z.of_nat k) + 1))
        with (S (Z.to_nat (hi - (lo + Z.of_nat (S k)) + 1))) by lia.
      simpl. replace (lo + Z.of_nat k + 1) with (lo + Z.of_nat (S k)) by lia.
      rewrite IH. by rewrite <- app_assoc.
    + apply lookup_ge_None in Hr. rewrite drop_ge by done.
      rewrite take_nil. simpl. by rewrite app_nil_r.
  - replace (Z.to_nat (hi - (lo + Z.of_nat k) + 1)) with 0%nat by lia.
    simpl. by rewrite app_nil_r.
Qed.

Lemma write_rooms_lookup rs j m i :
  write_rooms j rs m !! i =
  if decide (j <= i < j + Z.of_nat (length rs))
  then Some (room_id <$> rs !! Z.to_nat (i - j))
  else m !! i.
Proof.
  revert j m. induction rs as [|r rs IH]; intros j m; simpl.
  { case_decide; [lia | done]. }
  rewrite IH. unfold js_set. repeat case_decide; try lia.
  - replace (Z.to_nat (i - j)) with (S (Z.to_nat (i - (j + 1)))) by lia. done.
  - assert (i = j) as -> by lia. rewrite lookup_insert_eq.
    by replace (Z.to_nat (j - j)) with 0%nat by lia.
  - rewrite lookup_insert_ne by lia. done.
Qed.

Lemma op_SYNC_closed o st lo hi extra rs :
  range o = Some (lo :: hi :: extra) -> rooms o = Some rs ->
  op_SYNC o st =
  {| indexToRoomID :=
       write_rooms lo (take (Z.to_nat (hi - lo + 1)) rs) (indexToRoomID st);
     roomUpdates := roomUpdates st ++ take (Z.to_nat (hi - lo + 1)) rs;
     gapIndex := gapIndex st |}.
Proof.
  intros Hrg Hrs. unfold op_SYNC. rewrite Hrg, Hrs. simpl.
  pose proof (sync_loop_closed (Z.to_nat (hi - lo + 1)) lo hi rs 0
                (indexToRoomID st) (roomUpdates st)) as H.
  replace (lo + Z.of_nat 0) with lo in H by lia.
  rewrite H, Nat.min_id. by rewrite drop_0.
Qed.

(** In exact integers, a SYNC with range [[lo,hi]] and [n] rooms writes the
    ids of the first [c = min(n, hi-lo+1)] rooms at the positions
    [lo .. lo+c-1], appends those rooms, and leaves every other index as it
    was. *)
Lemma op_SYNC_effect rgs st o lo hi extra rs :
  op o = "SYNC" -> range o = Some (lo :: hi :: extra) -> rooms o = Some rs ->
  let c := Z.to_nat (Z.min (Z.of_nat (length rs)) (hi - lo + 1)) in
  let st' := process_op rgs st o in
  (forall (k : nat) r, (k < c)%nat -> rs !! k = Some r ->
     indexToRoomID st' !! (lo + Z.of_nat k) = Some (Some (room_id r))) /\
  roomUpdates st' = roomUpdates st ++ take c rs /\
  (forall j, ~ (lo <= j < lo + Z.of_nat c) ->
     indexToRoomID st' !! j = indexToRoomID st !! j) /\
  gapIndex st' = gapIndex st.
Proof.
  intros Ho Hrg Hrs c st'. unfold st'.
  rewrite process_op_SYNC, (op_SYNC_closed o st lo hi extra rs) by done.
  assert (Htake : take (Z.to_nat (hi - lo + 1)) rs = take c rs).
  { rewrite <- (take_ge rs (length rs)) at 1 by done.
    rewrite take_take. f_equal. unfold c. lia. }
  rewrite Htake. simpl.
  assert (Hlen : length (take c rs) = c).
  { apply length_take_le. unfold c. lia. }
  split; [|split; [done|split; [|done]]].
  - intros k r Hk Hr. rewrite write_rooms_lookup, Hlen.
    rewrite decide_True by lia.
    replace (Z.to_nat (lo + Z.of_nat k - lo)) with k by lia.
    by rewrite lookup_take_lt, Hr.
  - intros j Hj. rewrite write_rooms_lookup, Hlen.
    by rewrite decide_False by lia.
Qed.


(** ** The method on the store: what it writes and what it leaves alone *)

Section through_reference.
Context (l : loc) (h0 : heap).

Lemma heap_get_at (m : IndexToRoomId) k :
  heap_get (<[l := m]> h0) l k = js_get m k.
Proof. unfold heap_get. by rewrite lookup_insert_eq. Qed.

Lemma heap_set_at (m : IndexToRoomId) k v :
  heap_set l k v (<[l := m]> h0) = <[l := js_set k v m]> h0.
Proof. unfold heap_set. apply alter_insert_eq. Qed.

Lemma heap_delete_at (m : IndexToRoomId) k :
  heap_delete l k (<[l := m]> h0) = <[l := js_delete k m]> h0.
Proof. unfold heap_delete. apply alter_insert_eq. Qed.

Lemma sync_loop_h_sim fuel lo hi rs j (m : IndexToRoomId) ups :
  sync_loop_h fuel lo hi rs j l (<[l := m]> h0) ups =
  (<[l := (sync_loop fuel lo hi rs j m ups).1]> h0,
   (sync_loop fuel lo hi rs j m ups).2).
Proof.
  revert j m ups. induction fuel as [|fuel IH]; intros j m ups; simpl; [done|].
  destruct (j <=? hi); [|done].
  destruct (rs !! Z.to_nat (j - lo)); [|done].
  by rewrite heap_set_at, IH.
Qed.

Lemma invalidate_loop_h_sim fuel hi j (m : IndexToRoomId) :
  invalidate_loop_h fuel hi j l (<[l := m]> h0) =
  <[l := invalidate_loop fuel hi j m]> h0.
Proof.
  revert j m. induction fuel as [|fuel IH]; intros j m; simpl; [done|].
  destruct (j <=? hi); [|done]. by rewrite heap_delete_at, IH.
Qed.

Lemma shift_right_h_sim fuel rgs idx j (m : IndexToRoomId) :
  shift_right_h fuel rgs idx j l (<[l := m]> h0) =
  <[l := shift_right fuel rgs idx j m]> h0.
Proof.
  revert j m. induction fuel as [|fuel IH]; intros j m; simpl; [done|].
  destruct (j >? idx); [|done].
  destruct (indexInRange rgs j); [|apply IH].
  by rewrite heap_get_at, heap_set_at, IH.
Qed.

Lemma shift_left_h_sim fuel rgs idx j (m : IndexToRoomId) :
  shift_left_h fuel rgs idx j l (<[l := m]> h0) =
  <[l := shift_left fuel rgs idx j m]> h0.
Proof.
  revert j m. induction fuel as [|fuel IH]; intros j m; simpl; [done|].
  destruct (j <? idx); [|done].
  destruct (indexInRange rgs j); [|apply IH].
  by rewrite heap_get_at, heap_set_at, IH.
Qed.

Lemma shift_h_sim rgs gap idx (m : IndexToRoomId) :
  shift_h rgs gap idx l (<[l := m]> h0) = <[l := shift rgs gap idx m]> h0.
Proof.
  unfold shift_h, shift.
  destruct (gap >? idx); [apply shift_right_h_sim|].
  destruct (gap <? idx); [apply shift_left_h_sim|done].
Qed.

Lemma process_op_h_sim eng st o :
  process_op_h eng l (lift l h0 st) o =
  lift l h0 (process_op (ranges eng) st o).
Proof.
  unfold process_op_h, process_op, op_SYNC, op_INVALIDATE, op_INSERT,
    op_DELETE, op_UPDATE.
  destruct (String.eqb (op o) "SYNC").
  { destruct (range o) as [rg|], (rooms o) as [rs|]; try done.
    destruct (rg !! 0%nat) as [lo|], (rg !! 1%nat) as [hi|]; try done.
    simpl. rewrite sync_loop_h_sim. by destruct (sync_loop _ _ _ _ _ _ _). }
  destruct (String.eqb (op o) "INVALIDATE").
  { destruct (range o) as [rg|]; try done.
    destruct (rg !! 0%nat) as [lo|], (rg !! 1%nat) as [hi|]; try done.
    simpl. by rewrite invalidate_loop_h_sim. }
  destruct (String.eqb (op o) "INSERT").
  { destruct (index o) as [idx|], (room o) as [rm|]; try done.
    simpl. rewrite heap_get_at.
    destruct (truthy (js_get (indexToRoomID st) idx)).
    - destruct (gapIndex st <? 0); [done|].
      unfold lift. simpl. by rewrite shift_h_sim, heap_set_at.
    - unfold lift. simpl. by rewrite heap_set_at. }
  destruct (String.eqb (op o) "DELETE").
  { destruct (index o) as [idx|]; try done.
    unfold lift. simpl. by rewrite heap_delete_at. }
  destruct (String.eqb (op o) "UPDATE"); [|done].
  by destruct (index o) as [idx|], (room o) as [rm|].
Qed.

Lemma process_from_h_sim eng st os :
  foldl (process_op_h eng l) (lift l h0 st) os =
  lift l h0 (process_from (ranges eng) st os).
Proof.
  revert st. induction os as [|o os IH]; intros st; simpl; [done|].
  by rewrite process_op_h_sim, IH.
Qed.
End through_reference.

(** The method computes, at a fresh reference, what the state-passing
    [processOps] computes from the committed map. *)
Lemma processOps_h_refines eng h os :
  let l := fresh (dom h) in
  let res := processOps (ranges eng) (default ∅ (h !! roomIndexToRoomId eng)) os in
  processOps_h eng h os = (l, res.2, <[l := res.1]> h).
Proof.
  intros l res. unfold processOps_h, heap_spread.
  change {| h_store := <[fresh (dom h) := default ∅ (h !! roomIndexToRoomId eng)]> h;
            h_roomUpdates := []; h_gapIndex := -1 |}
    with (lift l h (init_state (default ∅ (h !! roomIndexToRoomId eng)))).
  by rewrite process_from_h_sim.
Qed.

(** C5.  For an engine whose committed map is in the store, [processOps]
    returns a reference that was not allocated before the call (so it is not
    the committed map's), leaves the object behind every reference of the old
    store as it was, key for key (the committed map among them), and stores
    its result behind the new reference only; a later write through the
    returned reference does not reach the committed map either. *)
Theorem processOps_leaves_committed_map eng h os :
  is_Some (h !! roomIndexToRoomId eng) ->
  forall l ups h', processOps_h eng h os = (l, ups, h') ->
  h !! l = None /\
  l <> roomIndexToRoomId eng /\
  h' !! roomIndexToRoomId eng = h !! roomIndexToRoomId eng /\
  (forall l0, l0 <> l -> h' !! l0 = h !! l0) /\
  h' !! l = Some (processOps (ranges eng)
                    (default ∅ (h !! roomIndexToRoomId eng)) os).1 /\
  (forall k v, heap_set l k v h' !! roomIndexToRoomId eng
               = h !! roomIndexToRoomId eng).
Proof.
  intros Hc l ups h'. rewrite processOps_h_refines. intros [= <- <- <-].
  assert (Hfresh : h !! fresh (dom h) = None).
  { apply not_elem_of_dom, is_fresh. }
  assert (Hne : fresh (dom h) <> roomIndexToRoomId eng).
  { intros E. rewrite E in Hfresh. rewrite Hfresh in Hc. by destruct Hc. }
  split; [done|]. split; [done|].
  split; [by rewrite lookup_insert_ne|].
  split; [intros l0 Hl0; by rewrite lookup_insert_ne|].
  split; [by rewrite lookup_insert_eq|].
  intros k v. unfold heap_set.
  by rewrite lookup_alter_ne, lookup_insert_ne.
Qed.

Lemma processOps_leaves_committed_map_witness :
  let '(eng, h) := new_Sync3 ∅ in
  let '(l, ups, h') := processOps_h eng h example_ops in
  h' !! roomIndexToRoomId eng = h !! roomIndexToRoomId eng /\
  l <> roomIndexToRoomId eng.
Proof.
  destruct (new_Sync3 ∅) as [eng h] eqn:E.
  destruct (processOps_h eng h example_ops) as [[l ups] h'] eqn:E'.
  assert (Hc : is_Some (h !! roomIndexToRoomId eng)).
  { unfold new_Sync3 in E. injection E as <- <-. vm_compute. eauto. }
  destruct (processOps_leaves_committed_map eng h example_ops Hc l ups h' E')
    as (_ & H1 & H2 & _).
  split; [exact H2 | exact H1].
Defined.

(** ** The sync loop, stage by stage *)

Lemma requests_app a b : requests (a ++ b) = requests a ++ requests b.
Proof. apply omap_app. Qed.

Lemma backoffs_app a b : backoffs (a ++ b) = backoffs a ++ backoffs b.
Proof. apply omap_app. Qed.

Lemma quiet_nil : quiet [].
Proof. done. Qed.

Lemma quiet_app a b : quiet a -> quiet b -> quiet (a ++ b).
Proof.
  intros [Ha1 Ha2] [Hb1 Hb2]. split.
  - by rewrite requests_app, Ha1, Hb1.
  - by rewrite backoffs_app, Ha2, Hb2.
Qed.

Lemma stop_quiet eng : quiet (stop eng).2.
Proof. unfold stop. by repeat case_match. Qed.

Lemma stop_status eng : status (stop eng).1 = Stopped.
Proof. unfold stop. by repeat case_match. Qed.

Lemma stop_ranges eng : ranges (stop eng).1 = ranges eng.
Proof. unfold stop. by repeat case_match. Qed.

(** [env_stop] as one equation: the engine it leaves and the actions it adds. *)
Lemma env_stop_eq p ev s :
  exists eng acts,
    env_stop p ev s = emit acts (with_this (fun _ => eng) s) /\
    quiet acts /\
    ranges eng = ranges (this s) /\
    status eng = (if decide (stop_at ev = Some p) then Stopped
                  else status (this s)).
Proof.
  unfold env_stop. case_decide.
  - pose proof (stop_quiet (this s)). pose proof (stop_status (this s)).
    pose proof (stop_ranges (this s)).
    destruct (stop (this s)) as [eng acts]. by exists eng, acts.
  - exists (this s), []. split; [|done].
    destruct s. unfold emit, with_this. simpl. by rewrite app_nil_r.
Qed.

Lemma try_request_eq b ev s :
  exists eng a1 a2,
    try_request b ev s =
      {| this := eng; store := store s; loop_pos := loop_pos s;
         backoffCounter := backoffCounter s; sessionId := sessionId s;
         running := running s;
         trace := trace s ++ Delay 100 :: a1 ++ Request b (loop_pos s) :: a2 |} /\
    quiet a1 /\ quiet a2 /\
    ranges eng = ranges (this s) /\
    status eng = status_after (request_awaits ev) ev (status (this s)).
Proof.
  unfold try_request, request_awaits.
  destruct (env_stop_eq AtDelay ev (emit [Delay 100] s))
    as (e1 & a1 & -> & Hq1 & Hr1 & Hs1).
  simpl in Hr1, Hs1.
  destruct (sync3_throws ev).
  - exists e1, a1, [].
    split. { unfold emit, with_this. simpl. f_equal. by rewrite <- !app_assoc. }
    split; [done|]. split; [apply quiet_nil|]. split; [done|].
    rewrite Hs1. unfold status_after, stopped_during.
    destruct (stop_at ev) as [[]|]; by vm_compute.
  - match goal with |- context [env_stop AtRequest ev ?t] =>
      destruct (env_stop_eq AtRequest ev t) as (e2 & a2 & -> & Hq2 & Hr2 & Hs2)
    end.
    exists e2, a1, a2.
    split. { unfold emit, with_this. simpl. f_equal. by rewrite <- !app_assoc. }
    simpl in Hr2, Hs2.
    split; [done|]. split; [done|]. split; [congruence|].
    rewrite Hs2, Hs1. unfold status_after, stopped_during.
    destruct (stop_at ev) as [[]|]; by vm_compute.
Qed.

Lemma live_spec s :
  live s = true <-> running s = true /\ status (this s) <> Stopped.
Proof.
  unfold live. rewrite andb_true_iff, negb_true_iff, bool_decide_eq_false.
  done.
Qed.

Lemma syncLoop_iter_live s ev :
  live s = true ->
  syncLoop_iter s ev =
  let isFirstSync := bool_decide (status (this s) = InitialSync) in
  let s1 := try_request (request_body s isFirstSync) ev s in
  match outcome ev with
  | ResponseFails err => on_error ev err s1
  | ProcessFails err =>
    on_error ev err (env_stop AtProcess ev (with_backoffCounter 0 s1))
  | Responds resp => on_response isFirstSync ev resp s1
  end.
Proof.
  intros [Hr Hs]%live_spec. unfold syncLoop_iter. rewrite Hr. simpl.
  by destruct (status (this s)).
Qed.

Lemma syncLoop_iter_not_live s ev :
  live s = false -> syncLoop_iter s ev = returned s.
Proof.
  unfold live, syncLoop_iter. destruct s as [eng h p c sid run tr]. simpl.
  destruct run; simpl; [|done].
  rewrite negb_false_iff, bool_decide_eq_true. by intros ->.
Qed.

Lemma on_error_abort ev err s :
  String.eqb (Err.name err) "AbortError" = true ->
  on_error ev err s =
  if bool_decide (status (this s) = Stopped) then returned s else s.
Proof. intros H. unfold on_error. rewrite H. by destruct (status (this s)). Qed.

Lemma on_error_backoff ev err s :
  String.eqb (Err.name err) "AbortError" = false ->
  exists eng a,
    on_error ev err s =
      after s eng (store s) (loop_pos s) (Z.min (backoffCounter s + 1) 5)
            (running s)
            (Backoff (2 ^ Z.min (backoffCounter s + 1) 5 * 1000) :: a) /\
    quiet a /\ ranges eng = ranges (this s) /\
    status eng = status_after [AtBackoff] ev (status (this s)).
Proof.
  intros H. unfold on_error. rewrite H.
  assert (Hc : (if backoffCounter s + 1 >? 5 then 5 else backoffCounter s + 1)
               = Z.min (backoffCounter s + 1) 5).
  { destruct (Z.gtb_spec (backoffCounter s + 1) 5); lia. }
  rewrite Hc.
  match goal with |- context [env_stop AtBackoff ev ?t] =>
    destruct (env_stop_eq AtBackoff ev t) as (e & a & -> & Hq & Hr & Hs)
  end.
  exists e, a. simpl in Hr, Hs.
  split. { unfold after, emit, with_this. simpl. f_equal. by rewrite <- app_assoc. }
  split; [done|]. split; [done|].
  rewrite Hs. unfold status_after, stopped_during.
  destruct (stop_at ev) as [[]|]; by vm_compute.
Qed.

Lemma on_response_eq b ev resp s :
  exists eng a,
    on_response b ev resp s =
      after s eng (processResponse (this s) (store s) resp)
            (Some (pos resp)) 0 (running s) a /\
    quiet a /\ ranges eng = ranges (this s) /\
    status eng = (if b then Syncing
                  else status_after [AtProcess] ev (status (this s))).
Proof.
  unfold on_response.
  match goal with |- context [env_stop AtProcess ev ?t] =>
    destruct (env_stop_eq AtProcess ev t) as (e & a & -> & Hq & Hr & Hs)
  end.
  simpl in Hr, Hs.
  assert (Hst : status e = status_after [AtProcess] ev (status (this s))).
  { rewrite Hs. unfold status_after, stopped_during.
    destruct (stop_at ev) as [[]|]; by vm_compute. }
  destruct b.
  - exists (set_status Syncing e), a. split; [reflexivity|done].
  - exists e, a. split; [reflexivity|done].
Qed.

Lemma status_after_app pts1 pts2 ev st :
  status_after pts2 ev (status_after pts1 ev st) =
  status_after (pts1 ++ pts2) ev st.
Proof.
  unfold status_after, stopped_during. destruct (stop_at ev) as [p|]; [|done].
  repeat case_bool_decide; try done; exfalso;
    rewrite elem_of_app in *; tauto.
Qed.

Section one_turn.
Context (s : LoopState) (ev : Event).
Hypothesis Hlive : live s = true.

(** A turn whose request fails with an error other than a cancellation. *)
Lemma iter_failure err :
  outcome ev = ResponseFails err ->
  String.eqb (Err.name err) "AbortError" = false ->
  exists eng a1 a2 a3,
    syncLoop_iter s ev =
      after s eng (store s) (loop_pos s)
            (Z.min (backoffCounter s + 1) 5) true
            (Delay 100 :: a1 ++ Request (request_body s (bool_decide (status (this s) = InitialSync)))
                     (loop_pos s) :: a2 ++
             Backoff (2 ^ Z.min (backoffCounter s + 1) 5 * 1000) :: a3) /\
    quiet a1 /\ quiet a2 /\ quiet a3 /\
    ranges eng = ranges (this s) /\
    status eng =
      status_after (request_awaits ev ++ [AtBackoff]) ev (status (this s)).
Proof.
  intros Ho Hn. rewrite syncLoop_iter_live, Ho by done. simpl.
  destruct (try_request_eq
              (request_body s (bool_decide (status (this s) = InitialSync)))
              ev s)
    as (e1 & a1 & a2 & -> & Hq1 & Hq2 & Hr1 & Hs1).
  match goal with |- context [on_error ev err ?t] =>
    destruct (on_error_backoff ev err t Hn) as (e2 & a3 & -> & Hq3 & Hr2 & Hs2)
  end.
  simpl in Hr2, Hs2. exists e2, a1, a2, a3.
  split.
  { unfold after. simpl. apply live_spec in Hlive as [-> _].
    f_equal. rewrite <- !app_assoc. simpl. by rewrite <- !app_assoc. }
  repeat (split; [done|]). split; [congruence|].
  by rewrite Hs2, Hs1, status_after_app.
Qed.

(** A turn whose request is cancelled. *)
Lemma iter_cancel err :
  outcome ev = ResponseFails err ->
  String.eqb (Err.name err) "AbortError" = true ->
  exists eng a1 a2,
    syncLoop_iter s ev =
      after s eng (store s) (loop_pos s) (backoffCounter s)
            (negb (bool_decide (status eng = Stopped)))
            (Delay 100 :: a1 ++ Request (request_body s (bool_decide (status (this s) = InitialSync)))
                     (loop_pos s) :: a2) /\
    quiet a1 /\ quiet a2 /\
    ranges eng = ranges (this s) /\
    status eng = status_after (request_awaits ev) ev (status (this s)).
Proof.
  intros Ho Hn. rewrite syncLoop_iter_live, Ho by done. simpl.
  destruct (try_request_eq
              (request_body s (bool_decide (status (this s) = InitialSync)))
              ev s)
    as (e1 & a1 & a2 & -> & Hq1 & Hq2 & Hr1 & Hs1).
  rewrite on_error_abort by done. simpl.
  exists e1, a1, a2. split; [|done].
  apply live_spec in Hlive as [Hrun _]. unfold after, returned. simpl.
  rewrite Hrun. by case_bool_decide.
Qed.

(** A turn whose response arrives and is processed. *)
Lemma iter_responds resp :
  outcome ev = Responds resp ->
  exists eng h a1 a2 a3,
    syncLoop_iter s ev =
      after s eng h (Some (pos resp)) 0 true
            (Delay 100 :: a1 ++ Request (request_body s (bool_decide (status (this s) = InitialSync)))
                     (loop_pos s) :: a2 ++ a3) /\
    quiet a1 /\ quiet a2 /\ quiet a3 /\
    ranges eng = ranges (this s) /\
    status eng =
      (if bool_decide (status (this s) = InitialSync) then Syncing
       else status_after [AtDelay; AtRequest; AtProcess] ev
                         (status (this s))).
Proof.
  intros Ho. rewrite syncLoop_iter_live, Ho by done. simpl.
  destruct (try_request_eq
              (request_body s (bool_decide (status (this s) = InitialSync)))
              ev s)
    as (e1 & a1 & a2 & -> & Hq1 & Hq2 & Hr1 & Hs1).
  match goal with |- context [on_response ?b ev resp ?t] =>
    destruct (on_response_eq b ev resp t) as (e2 & a3 & -> & Hq3 & Hr2 & Hs2)
  end.
  simpl in Hr2, Hs2. eexists e2, _, a1, a2, a3.
  split.
  { unfold after. simpl. apply live_spec in Hlive as [-> _].
    f_equal. rewrite <- !app_assoc. simpl. by rewrite <- !app_assoc. }
  repeat (split; [done|]). split; [congruence|].
  rewrite Hs2. case_bool_decide; [done|].
  rewrite Hs1, status_after_app. unfold request_awaits, sync3_throws.
  by rewrite Ho.
Qed.

(** A turn whose response arrives and whose processing throws. *)
Lemma iter_process_fails err :
  outcome ev = ProcessFails err ->
  exists eng c run a1 a2 a3,
    syncLoop_iter s ev =
      after s eng (store s) (loop_pos s) c run
            (Delay 100 :: a1 ++ Request (request_body s (bool_decide (status (this s) = InitialSync)))
                     (loop_pos s) :: a2 ++ a3) /\
    quiet a1 /\ quiet a2 /\ requests a3 = [] /\
    ranges eng = ranges (this s) /\
    (status eng = status (this s) \/ status eng = Stopped) /\
    (run = false -> status eng = Stopped) /\
    (String.eqb (Err.name err) "AbortError" = false ->
     c = 1 /\ run = true /\ backoffs a3 = [2000]).
Proof.
  intros Ho. rewrite syncLoop_iter_live, Ho by done. simpl.
  destruct (try_request_eq
              (request_body s (bool_decide (status (this s) = InitialSync)))
              ev s)
    as (e1 & a1 & a2 & -> & Hq1 & Hq2 & Hr1 & Hs1).
  match goal with |- context [env_stop AtProcess ev ?t] =>
    destruct (env_stop_eq AtProcess ev t) as (e2 & a3 & -> & Hq3 & Hr2 & Hs2)
  end.
  simpl in Hr2, Hs2.
  assert (Hst : status e2 = status (this s) \/ status e2 = Stopped).
  { rewrite Hs2, Hs1. unfold status_after.
    case_decide; [by right|]. destruct (stopped_during _ _); auto. }
  apply live_spec in Hlive as [Hrun Hns].
  destruct (String.eqb (Err.name err) "AbortError") eqn:Hn.
  - rewrite on_error_abort by done. simpl.
    exists e2, 0, (negb (bool_decide (status e2 = Stopped))), a1, a2, a3.
    split.
    { unfold after, returned, emit, with_this. simpl. rewrite Hrun.
      case_bool_decide; simpl; f_equal; rewrite <- ?app_assoc; simpl;
        by rewrite <- ?app_assoc. }
    destruct Hq3 as [Hq3 _].
    repeat (split; [done || congruence|]).
    split; [|discriminate].
    rewrite negb_false_iff, bool_decide_eq_true. done.
  - match goal with |- context [on_error ev err ?t] =>
      destruct (on_error_backoff ev err t Hn)
        as (e3 & a4 & -> & Hq4 & Hr3 & Hs3)
    end.
    simpl in Hr3, Hs3.
    exists e3, 1, true, a1, a2, (a3 ++ Backoff 2000 :: a4).
    split.
    { unfold after, emit, with_this. simpl. rewrite Hrun. f_equal.
      rewrite <- !app_assoc. simpl. by rewrite <- !app_assoc. }
    repeat (split; [done|]).
    split. { rewrite requests_app. destruct Hq3 as [-> _]. by destruct Hq4. }
    split; [congruence|].
    split. { rewrite Hs3. unfold status_after.
             destruct (stopped_during _ _); auto. }
    split; [done|].
    intros _. repeat split.
    rewrite backoffs_app. destruct Hq3 as [_ ->]. simpl.
    by destruct Hq4 as [_ ->].
Qed.
End one_turn.

(** ** The sync loop, turn by turn *)

Lemma new_actions_after s eng h p c run acts :
  new_actions s (after s eng h p c run acts) = acts.
Proof. unfold new_actions, after. simpl. apply drop_app_length. Qed.

Lemma new_actions_returned s : new_actions s (returned s) = [].
Proof. unfold new_actions, returned. simpl. apply drop_all. Qed.

Lemma requests_turn a1 b p a2 tl :
  quiet a1 -> quiet a2 ->
  requests (Delay 100 :: a1 ++ Request b p :: a2 ++ tl) = (b, p) :: requests tl.
Proof.
  intros [H1 _] [H2 _]. change (Delay 100 :: ?l) with ([Delay 100] ++ l).
  rewrite !requests_app, H1. simpl. by rewrite requests_app, H2.
Qed.

Lemma backoffs_turn a1 b p a2 tl :
  quiet a1 -> quiet a2 ->
  backoffs (Delay 100 :: a1 ++ Request b p :: a2 ++ tl) = backoffs tl.
Proof.
  intros [_ H1] [_ H2]. change (Delay 100 :: ?l) with ([Delay 100] ++ l).
  rewrite !backoffs_app, H1. simpl. by rewrite backoffs_app, H2.
Qed.

(** What every turn of a live loop does, whatever its outcome. *)
Lemma iter_live_any s ev :
  live s = true ->
  exists eng h c run a1 a2 tl,
    syncLoop_iter s ev =
      after s eng h
        (match outcome ev with
         | Responds resp => Some (pos resp)
         | _ => loop_pos s
         end) c run
        (Delay 100 :: a1 ++
         Request (request_body s (bool_decide (status (this s) = InitialSync)))
                 (loop_pos s) :: a2 ++ tl) /\
    quiet a1 /\ quiet a2 /\ requests tl = [] /\
    ranges eng = ranges (this s) /\
    (status eng = Stopped \/
     status eng = match outcome ev with
                  | Responds _ => Syncing
                  | _ => status (this s)
                  end) /\
    (run = false -> status eng = Stopped).
Proof.
  intros Hl. destruct (outcome ev) as [err|err|resp] eqn:Ho.
  - destruct (String.eqb (Err.name err) "AbortError") eqn:Hn.
    + destruct (iter_cancel s ev Hl err Ho Hn)
        as (eng & a1 & a2 & -> & Hq1 & Hq2 & Hr & Hs).
      exists eng, (store s), (backoffCounter s),
        (negb (bool_decide (status eng = Stopped))), a1, a2, [].
      rewrite app_nil_r. repeat (split; [done|]).
      split. { rewrite Hs. unfold status_after.
               destruct (stopped_during _ _); auto. }
      rewrite negb_false_iff, bool_decide_eq_true. done.
    + destruct (iter_failure s ev Hl err Ho Hn)
        as (eng & a1 & a2 & a3 & -> & Hq1 & Hq2 & Hq3 & Hr & Hs).
      eexists eng, (store s), _, true, a1, a2, (Backoff _ :: a3).
      split; [reflexivity|]. repeat (split; [done|]).
      split. { by destruct Hq3. }
      split; [done|]. split; [|done].
      rewrite Hs. unfold status_after. destruct (stopped_during _ _); auto.
  - destruct (iter_process_fails s ev Hl err Ho)
      as (eng & c & run & a1 & a2 & a3 & -> & Hq1 & Hq2 & Hq3 & Hr & Hs & Hrun & _).
    exists eng, (store s), c, run, a1, a2, a3.
    repeat (split; [done|]). split; [destruct Hs; auto|done].
  - destruct (iter_responds s ev Hl resp Ho)
      as (eng & h & a1 & a2 & a3 & -> & Hq1 & Hq2 & Hq3 & Hr & Hs).
    exists eng, h, 0, true, a1, a2, a3.
    repeat (split; [done|]). split; [by destruct Hq3|]. split; [done|].
    split; [|done].
    rewrite Hs. case_bool_decide as Hi; [auto|].
    unfold status_after. destruct (stopped_during _ _); [auto|].
    apply live_spec in Hl as [_ Hns]. destruct (status (this s)); auto; done.
Qed.

Lemma iter_requests s ev :
  requests (new_actions s (syncLoop_iter s ev)) =
  if live s
  then [(request_body s (bool_decide (status (this s) = InitialSync)),
         loop_pos s)]
  else [].
Proof.
  destruct (live s) eqn:Hl.
  - destruct (iter_live_any s ev Hl)
      as (eng & h & c & run & a1 & a2 & tl & -> & Hq1 & Hq2 & Htl & _).
    by rewrite new_actions_after, requests_turn, Htl.
  - by rewrite syncLoop_iter_not_live, new_actions_returned.
Qed.


Lemma ex_loop_started :
  start ex_engine ex_heap "1635724800000" =
  (set_status InitialSync (set_error None ex_engine), Some ex_loop).
Proof. reflexivity. Qed.


(** ** Backoff *)

Lemma iter_after s ev :
  exists eng h p c run acts, syncLoop_iter s ev = after s eng h p c run acts.
Proof.
  destruct (live s) eqn:Hl.
  - destruct (iter_live_any s ev Hl)
      as (eng & h & c & run & a1 & a2 & tl & -> & _). by repeat eexists.
  - rewrite syncLoop_iter_not_live by done.
    exists (this s), (store s), (loop_pos s), (backoffCounter s), false, [].
    unfold after, returned. by rewrite app_nil_r.
Qed.

Lemma trace_grows_iter s ev : trace s `prefix_of` trace (syncLoop_iter s ev).
Proof.
  destruct (iter_after s ev) as (eng & h & p & c & run & acts & ->).
  by exists acts.
Qed.

Lemma trace_grows_run s evs : trace s `prefix_of` trace (syncLoop_run s evs).
Proof.
  revert s. induction evs as [|ev evs IH]; intros s; simpl; [done|].
  etrans; [apply (trace_grows_iter s ev) | apply IH].
Qed.

Lemma new_actions_trans s s' s'' :
  trace s `prefix_of` trace s' -> trace s' `prefix_of` trace s'' ->
  new_actions s s'' = new_actions s s' ++ new_actions s' s''.
Proof.
  intros [k1 H1] [k2 H2]. unfold new_actions. rewrite H2, H1.
  rewrite <- app_assoc. rewrite !drop_app_length.
  rewrite app_assoc. by rewrite drop_app_length.
Qed.

Lemma new_actions_run_cons s ev evs :
  new_actions s (syncLoop_run s (ev :: evs)) =
  new_actions s (syncLoop_iter s ev) ++
  new_actions (syncLoop_iter s ev) (syncLoop_run (syncLoop_iter s ev) evs).
Proof.
  apply new_actions_trans; [apply trace_grows_iter | apply trace_grows_run].
Qed.

Lemma status_after_no_stop pts ev st :
  stop_at ev = None -> status_after pts ev st = st.
Proof. intros H. unfold status_after, stopped_during. by rewrite H. Qed.

Lemma live_after s eng h p c acts :
  status eng <> Stopped -> live (after s eng h p c true acts) = true.
Proof. intros H. apply live_spec. done. Qed.

Lemma backoff_ms_step c k k' :
  0 <= c -> 0 < k -> k' = k + 1 ->
  backoff_ms (Z.min (c + 1) 5 + k) = backoff_ms (c + k').
Proof.
  intros Hc Hk ->. unfold backoff_ms.
  replace (Z.min (Z.min (c + 1) 5 + k) 5) with (Z.min (c + (k + 1)) 5) by lia.
  done.
Qed.

Lemma env_stop_none p ev s : stop_at ev = None -> env_stop p ev s = s.
Proof. intros H. unfold env_stop. rewrite H. by rewrite decide_False. Qed.

Lemma iter_no_stop_live s ev :
  live s = true -> stop_at ev = None -> live (syncLoop_iter s ev) = true.
Proof.
  intros Hl Hstop. pose proof (proj1 (live_spec s) Hl) as [Hrun Hns].
  destruct (outcome ev) as [err|err|resp] eqn:Ho.
  - destruct (String.eqb (Err.name err) "AbortError") eqn:Hn.
    + destruct (iter_cancel s ev Hl err Ho Hn)
        as (eng & a1 & a2 & -> & _ & _ & _ & Hs).
      rewrite status_after_no_stop in Hs by done.
      rewrite bool_decide_eq_false_2 by congruence.
      apply live_after. congruence.
    + destruct (iter_failure s ev Hl err Ho Hn)
        as (eng & a1 & a2 & a3 & -> & _ & _ & _ & _ & Hs).
      rewrite status_after_no_stop in Hs by done.
      apply live_after. congruence.
  - rewrite syncLoop_iter_live, Ho by done. cbv zeta.
    unfold try_request, on_error, sync3_throws. rewrite Ho.
    rewrite !env_stop_none by done.
    destruct (String.eqb _ _); simpl.
    + destruct (status (this s)) eqn:E; try done;
        apply live_spec; simpl; rewrite E; done.
    + apply live_spec. done.
  - destruct (iter_responds s ev Hl resp Ho)
      as (eng & h & a1 & a2 & a3 & -> & _ & _ & _ & _ & Hs).
    rewrite status_after_no_stop in Hs by done.
    apply live_after. rewrite Hs. by case_bool_decide.
Qed.

(** A run of turns whose response arrives and whose processing throws an
    error that is not a cancellation: each sleeps 2 seconds. *)
Lemma backoffs_of_processing_failures evs : forall s,
  live s = true -> Forall processing_failure evs ->
  backoffs (new_actions s (syncLoop_run s evs)) = replicate (length evs) 2000.
Proof.
  induction evs as [|ev evs IH]; intros s Hl Hall.
  { simpl. unfold new_actions. by rewrite drop_all. }
  apply Forall_cons in Hall as [(Hstop & err & Ho & Hn) Hall].
  rewrite new_actions_run_cons, backoffs_app.
  pose proof (iter_no_stop_live s ev Hl Hstop) as Hl'.
  rewrite (IH _ Hl' Hall).
  destruct (iter_process_fails s ev Hl err Ho)
    as (eng & c & run & a1 & a2 & a3 & -> & Hq1 & Hq2 & _ & _ & _ & _ & H).
  destruct (H Hn) as (_ & _ & Hb).
  by rewrite new_actions_after, backoffs_turn, Hb.
Qed.

(** A run of failed turns from a live state with counter [c]: the [k]-th
    failure sleeps [2^min(c+k,5)] seconds; cancellations in between add no
    sleep and do not count. *)
Lemma backoffs_of_failed_turns evs : forall s,
  live s = true -> 0 <= backoffCounter s -> Forall failed_turn evs ->
  backoffs (new_actions s (syncLoop_run s evs)) =
    (fun k => backoff_ms (backoffCounter s + k)) <$>
      (Z.of_nat <$> seq 1 (length (List.filter is_failure evs))).
Proof.
  induction evs as [|ev evs IH]; intros s Hl Hc Hall.
  { simpl. unfold new_actions. by rewrite drop_all. }
  apply Forall_cons in Hall as [[Hstop Hkind] Hall].
  rewrite new_actions_run_cons, backoffs_app.
  pose proof (proj1 (live_spec s) Hl) as [_ Hns].
  unfold is_failure, is_cancellation in Hkind. simpl.
  unfold is_failure at 1.
  destruct (outcome ev) as [err|err|resp] eqn:Ho; try done.
  destruct (String.eqb (Err.name err) "AbortError") eqn:Hn; simpl.
  - destruct (iter_cancel s ev Hl err Ho Hn)
      as (eng & a1 & a2 & -> & Hq1 & Hq2 & Hr & Hs).
    rewrite status_after_no_stop in Hs by done.
    rewrite new_actions_after.
    rewrite <- (app_nil_r a2) at 1. rewrite backoffs_turn by done. simpl.
    rewrite bool_decide_eq_false_2 by congruence. simpl.
    rewrite IH; [done| apply live_after; congruence | done | done].
  - destruct (iter_failure s ev Hl err Ho Hn)
      as (eng & a1 & a2 & a3 & -> & Hq1 & Hq2 & Hq3 & Hr & Hs).
    rewrite status_after_no_stop in Hs by done.
    rewrite new_actions_after, backoffs_turn by done. simpl.
    destruct Hq3 as [_ ->].
    rewrite IH; [| apply live_after; congruence | simpl; lia | done].
    simpl. f_equal.
    change (list_fmap Z Z ?f (list_fmap nat Z ?g (seq 2 ?n)))
      with (f <$> (g <$> seq 2 n)).
    rewrite <- (fmap_S_seq 1), <- !list_fmap_compose.
    apply list_fmap_ext. intros i k Hk. simpl.
    apply lookup_seq in Hk as [-> _].
    apply backoff_ms_step; lia.
Qed.

(** C7, as the code has it.  In a live loop, over a run of turns whose
    requests fail before a response is there (with cancellations possibly in
    between, which add no sleep and do not count, and with no call of
    [stop()]): if the failure counter is zero at the start of the run, as it
    is when the loop is entered, the backoff sleeps are those of
    [backoff_delays_ms], the [k]-th being [2^min(k,5)] seconds, that is 2, 4,
    8, 16, 32, 32, ... seconds.  A turn whose response arrives and is
    processed sleeps no backoff and leaves the counter at zero whatever it
    was, so the same run of failures after it sleeps 2, 4, 8, ... again.  The
    counter is reset as soon as the response is there, before it is
    processed: a turn whose response arrives and whose processing then
    throws, whatever the counter was, sleeps 2 seconds and leaves the counter
    at one, so a run of such turns sleeps 2 seconds each time. *)
Theorem backoff_delays s evs :
  live s = true -> 0 <= backoffCounter s -> Forall failed_turn evs ->
  (backoffCounter s = 0 ->
   backoffs (new_actions s (syncLoop_run s evs)) =
   backoff_delays_ms (length (List.filter is_failure evs))) /\
  (forall ev resp,
     outcome ev = Responds resp -> stop_at ev = None ->
     backoffCounter (syncLoop_iter s ev) = 0 /\
     backoffs (new_actions s (syncLoop_iter s ev)) = [] /\
     backoffs (new_actions (syncLoop_iter s ev)
                 (syncLoop_run (syncLoop_iter s ev) evs)) =
     backoff_delays_ms (length (List.filter is_failure evs))) /\
  (forall ev err,
     outcome ev = ProcessFails err ->
     String.eqb (Err.name err) "AbortError" = false ->
     backoffCounter (syncLoop_iter s ev) = 1 /\
     backoffs (new_actions s (syncLoop_iter s ev)) = [2000]) /\
  (forall evs', Forall processing_failure evs' ->
     backoffs (new_actions s (syncLoop_run s evs')) =
     replicate (length evs') 2000).
Proof.
  intros Hl Hc Hall. split; [|split; [|split]].
  4: { intros evs' Hall'. by apply backoffs_of_processing_failures. }
  - intros H0. rewrite backoffs_of_failed_turns by done. by rewrite H0.
  - intros ev resp Ho Hstop.
    destruct (iter_responds s ev Hl resp Ho)
      as (eng & h & a1 & a2 & a3 & -> & Hq1 & Hq2 & Hq3 & Hr & Hs).
    split; [done|].
    rewrite new_actions_after, backoffs_turn by done.
    split; [by destruct Hq3|].
    rewrite backoffs_of_failed_turns; [done| |done|done].
    apply live_after. rewrite Hs. case_bool_decide; [done|].
    rewrite status_after_no_stop by done. by apply live_spec in Hl as [_ ?].
  - intros ev err Ho Hn.
    destruct (iter_process_fails s ev Hl err Ho)
      as (eng & c & run & a1 & a2 & a3 & -> & Hq1 & Hq2 & _ & _ & _ & _ & H).
    destruct (H Hn) as (-> & _ & Hb).
    split; [done|]. by rewrite new_actions_after, backoffs_turn.
Qed.

Lemma backoff_delays_witness :
  backoffs (new_actions ex_loop
              (syncLoop_run ex_loop (replicate 7 ev_network_error))) =
  [2000; 4000; 8000; 16000; 32000; 32000; 32000].
Proof.
  destruct (backoff_delays ex_loop (replicate 7 ev_network_error)) as [H _].
  - reflexivity.
  - by vm_compute.
  - repeat constructor.
  - rewrite H; reflexivity.
Defined.

(** C7 as stated fails: three consecutive turns whose response arrives and
    whose processing throws an error that is not a cancellation are three
    consecutive failures, and they sleep 2, 2 and 2 seconds, not 2, 4 and
    8. *)
Lemma processing_failures_do_not_escalate :
  backoffs (new_actions ex_loop
              (syncLoop_run ex_loop (replicate 3 ev_process_throws))) =
  [2000; 2000; 2000] /\
  backoff_delays_ms 3 = [2000; 4000; 8000].
Proof. by vm_compute. Qed.

(** ** Cancellation *)

Lemma syncLoop_run_returned s evs :
  running s = false -> syncLoop_run s evs = s.
Proof.
  intros H. induction evs as [|ev evs IH]; simpl; [done|].
  replace (syncLoop_iter s ev) with s; [exact IH|].
  unfold syncLoop_iter. by rewrite H.
Qed.

(** C8.  A turn of a live loop whose request fails with an [AbortError] sleeps
    no backoff and leaves [pos] and the failure counter as they were.  If the
    status is [Stopped] when the error is caught, the loop function returns:
    no later turn does anything.  Otherwise the loop stays live, and its next
    turn goes straight to the fixed 100 ms delay and the request, issued with
    the same [pos]. *)
Theorem cancellation_retries_without_backoff s ev err :
  live s = true ->
  outcome ev = ResponseFails err -> Err.name err = "AbortError" ->
  let s' := syncLoop_iter s ev in
  loop_pos s' = loop_pos s /\
  backoffCounter s' = backoffCounter s /\
  backoffs (new_actions s s') = [] /\
  (status (this s') = Stopped ->
   running s' = false /\ forall evs, syncLoop_run s' evs = s') /\
  (status (this s') <> Stopped ->
   live s' = true /\
   forall ev', exists a1 b rest,
     new_actions s' (syncLoop_iter s' ev') =
       Delay 100 :: a1 ++ Request b (loop_pos s) :: rest /\
     quiet a1 /\ requests rest = []).
Proof.
  intros Hl Ho Hname s'.
  assert (Hn : String.eqb (Err.name err) "AbortError" = true)
    by by rewrite Hname.
  unfold s'.
  destruct (iter_cancel s ev Hl err Ho Hn)
    as (eng & a1 & a2 & -> & Hq1 & Hq2 & Hr & Hs).
  split; [done|]. split; [done|].
  split. { rewrite new_actions_after. rewrite <- (app_nil_r a2).
           by rewrite backoffs_turn. }
  simpl. split.
  - intros Hst. rewrite Hst. simpl. split; [done|].
    intros evs. by apply syncLoop_run_returned.
  - intros Hst. rewrite bool_decide_eq_false_2 by done. simpl.
    assert (Hl' : live (after s eng (store s) (loop_pos s) (backoffCounter s)
                          true (Delay 100 :: a1 ++
                                Request (request_body s (bool_decide
                                  (status (this s) = InitialSync)))
                                  (loop_pos s) :: a2)) = true)
      by by apply live_after.
    split; [done|]. intros ev'.
    destruct (iter_live_any _ ev' Hl')
      as (eng' & h' & c' & run' & b1 & b2 & tl & -> & Hb1 & Hb2 & Htl & _).
    rewrite new_actions_after. eexists b1, _, (b2 ++ tl).
    split; [reflexivity|]. split; [done|].
    rewrite requests_app, Htl. by destruct Hb2 as [-> _].
Qed.

Lemma cancellation_retries_without_backoff_witness :
  (requests (new_actions ex_loop
     (syncLoop_run ex_loop [ev_abort; ev_network_error]))).*2 = [None; None] /\
  backoffs (new_actions ex_loop (syncLoop_iter ex_loop ev_abort)) = [] /\
  running (syncLoop_iter ex_loop ev_abort_by_stop) = false.
Proof.
  destruct (cancellation_retries_without_backoff ex_loop ev_abort
              {| Err.name := "AbortError" |} eq_refl eq_refl eq_refl)
    as (_ & _ & H1 & _ & _).
  destruct (cancellation_retries_without_backoff ex_loop ev_abort_by_stop
              {| Err.name := "AbortError" |} eq_refl eq_refl eq_refl)
    as (_ & _ & _ & H2 & _).
  split; [by vm_compute|]. split; [exact H1|].
  apply H2. by vm_compute.
Defined.

(** ** Sticky parameters *)

Lemma request_body_same s s' b :
  sessionId s' = sessionId s -> ranges (this s') = ranges (this s) ->
  request_body s' b = request_body s b.
Proof.
  intros H1 H2. unfold request_body, request_list. rewrite H1, H2. done.
Qed.

(** One turn, as the sticky parameters see it: the body of the request, if
    one is issued, and the status afterwards. *)
Lemma iter_bodies s ev :
  (running s = false -> status (this s) = Stopped) ->
  let s' := syncLoop_iter s ev in
  (requests (new_actions s s')).*1 =
    (if live s
     then [request_body s (bool_decide (status (this s) = InitialSync))]
     else []) /\
  sessionId s' = sessionId s /\ ranges (this s') = ranges (this s) /\
  (running s' = false -> status (this s') = Stopped) /\
  (status (this s') = Stopped \/
   status (this s') = match outcome ev with
                      | Responds _ => if live s then Syncing else status (this s)
                      | _ => status (this s)
                      end).
Proof.
  intros Hinv s'. split.
  { unfold s'. rewrite iter_requests. by destruct (live s). }
  unfold s'. destruct (live s) eqn:Hl.
  - destruct (iter_live_any s ev Hl)
      as (eng & h & c & run & a1 & a2 & tl & -> & _ & _ & _ & Hr & Hs & Hrun).
    simpl. repeat (split; [done|]). destruct (outcome ev); done.
  - rewrite syncLoop_iter_not_live by done. simpl.
    repeat (split; [done|]).
    assert (Hst : status (this s) = Stopped).
    { unfold live in Hl. apply andb_false_iff in Hl as [Hl|Hl]; [auto|].
      by rewrite negb_false_iff, bool_decide_eq_true in Hl. }
    split; [done|]. by left.
Qed.

(** Once the status is not [InitialSync], no request carries the sticky
    parameters. *)
Lemma requests_after_first_success evs : forall s,
  (running s = false -> status (this s) = Stopped) ->
  status (this s) <> InitialSync ->
  exists k, (requests (new_actions s (syncLoop_run s evs))).*1 =
            replicate k (request_body s false).
Proof.
  induction evs as [|ev evs IH]; intros s Hinv Hst.
  { exists 0%nat. unfold new_actions. simpl. by rewrite drop_all. }
  destruct (iter_bodies s ev Hinv) as (Hb & Hsid & Hrg & Hinv' & Hst').
  destruct (IH (syncLoop_iter s ev) Hinv') as [k Hk].
  { destruct Hst' as [-> | ->]; [done|].
    destruct (outcome ev); try done. by destruct (live s). }
  rewrite new_actions_run_cons, requests_app, fmap_app, Hb, Hk.
  rewrite (request_body_same s (syncLoop_iter s ev)) by done.
  rewrite bool_decide_eq_false_2 by done.
  destruct (live s); [by exists (S k) | by exists k].
Qed.

(** Until a response has been processed, every request carries them. *)
Lemma requests_before_first_success evs : forall s,
  (running s = false -> status (this s) = Stopped) ->
  status (this s) <> Syncing ->
  Forall (fun e => forall r, outcome e <> Responds r) evs ->
  let s' := syncLoop_run s evs in
  (exists k, (requests (new_actions s s')).*1 =
             replicate k (request_body s true)) /\
  sessionId s' = sessionId s /\ ranges (this s') = ranges (this s) /\
  (running s' = false -> status (this s') = Stopped) /\
  status (this s') <> Syncing.
Proof.
  induction evs as [|ev evs IH]; intros s Hinv Hst Hall.
  { simpl. split; [|done]. exists 0%nat. unfold new_actions. by rewrite drop_all. }
  apply Forall_cons in Hall as [Hev Hall].
  destruct (iter_bodies s ev Hinv) as (Hb & Hsid & Hrg & Hinv' & Hst').
  assert (Hst1 : status (this (syncLoop_iter s ev)) <> Syncing).
  { destruct Hst' as [-> | ->]; [done|].
    destruct (outcome ev) as [| |r]; try done. by destruct (Hev r). }
  destruct (IH (syncLoop_iter s ev) Hinv' Hst1 Hall)
    as ([k Hk] & Hsid' & Hrg' & Hinv'' & Hst'').
  cbv zeta. change (syncLoop_run s (ev :: evs))
    with (syncLoop_run (syncLoop_iter s ev) evs) at 2 3 4 5.
  split; [|repeat split; try done; congruence].
  rewrite new_actions_run_cons, requests_app, fmap_app, Hb, Hk.
  rewrite (request_body_same s (syncLoop_iter s ev)) by done.
  destruct (live s) eqn:Hl; [|by exists k].
  apply live_spec in Hl as [_ Hns].
  rewrite bool_decide_eq_true_2 by (destruct (status (this s)); done).
  by exists (S k).
Qed.

(** C9, as the code has it.  The request of a turn carries the sticky
    parameters exactly when the status is [InitialSync] as the turn starts,
    whatever state the turn starts from (first conjunct).  So in a loop
    launched by [start()], as long as [start()] is not called again while the
    loop is suspended (the runs here: the environment calls [stop()] only),
    every request up to and including the one of the first turn whose
    response is processed carries them (a request retried after a failure
    carries them again), and every request after that turn has only the
    ranges and the session id.  A [start()] that follows a [stop()] during a
    suspension puts the status back to [InitialSync]; by the first conjunct
    the next request of the suspended loop then carries the sticky
    parameters again. *)
Theorem sticky_until_first_success s evs1 ev resp evs2 :
  running s = true -> status (this s) = InitialSync ->
  Forall (fun e => forall r, outcome e <> Responds r) evs1 ->
  outcome ev = Responds resp ->
  let s1 := syncLoop_run s evs1 in
  let s2 := syncLoop_iter s1 ev in
  let s3 := syncLoop_run s2 evs2 in
  (forall s0 ev0, live s0 = true ->
     (requests (new_actions s0 (syncLoop_iter s0 ev0))).*1 =
     [request_body s0 (bool_decide (status (this s0) = InitialSync))]) /\
  (exists k, (requests (new_actions s s2)).*1 =
             replicate k (request_body s true)) /\
  (exists k, (requests (new_actions s2 s3)).*1 =
             replicate k (request_body s false)) /\
  (forall s0, has_sticky (request_body s0 true) = true /\
              omits_sticky (request_body s0 false) = true) /\
  Req.session_id (request_body s false) = sessionId s /\
  Req.rooms <$> Req.lists (request_body s false) = [ranges (this s)].
Proof.
  intros Hrun Hst Hall Ho s1 s2 s3.
  split. { intros s0 ev0 Hl. by rewrite iter_requests, Hl. }
  destruct (requests_before_first_success evs1 s)
    as ([k1 Hk1] & Hsid1 & Hrg1 & Hinv1 & Hst1);
    [by rewrite Hrun | by rewrite Hst | done |].
  fold s1 in Hk1, Hsid1, Hrg1, Hinv1, Hst1.
  destruct (iter_bodies s1 ev Hinv1) as (Hb & Hsid2 & Hrg2 & Hinv2 & Hst2).
  fold s2 in Hb, Hsid2, Hrg2, Hinv2, Hst2.
  split; [|split; [|done]].
  - rewrite (new_actions_trans s s1 s2), requests_app, fmap_app, Hk1, Hb;
      [|apply trace_grows_run|apply trace_grows_iter].
    rewrite (request_body_same s s1) by done.
    destruct (live s1) eqn:Hl; [|exists k1; by rewrite app_nil_r].
    apply live_spec in Hl as [_ Hns].
    rewrite bool_decide_eq_true_2 by (destruct (status (this s1)); done).
    exists (k1 + 1)%nat. by rewrite replicate_add.
  - destruct (requests_after_first_success evs2 s2 Hinv2) as [k2 Hk2].
    { rewrite Ho in Hst2. destruct Hst2 as [-> | ->]; [done|].
      destruct (live s1) eqn:Hl; [done|].
      unfold live in Hl. apply andb_false_iff in Hl as [Hl|Hl].
      - rewrite Hinv1 by done. done.
      - rewrite negb_false_iff, bool_decide_eq_true in Hl. by rewrite Hl. }
    exists k2. fold s3 in Hk2. rewrite Hk2.
    rewrite (request_body_same s s2); [done| |]; congruence.
Qed.

Lemma sticky_until_first_success_witness :
  exists k,
    (requests (new_actions (syncLoop_iter
                              (syncLoop_run ex_loop [ev_network_error]) (ev_ok 1))
                 (syncLoop_run
                    (syncLoop_iter (syncLoop_run ex_loop [ev_network_error])
                                   (ev_ok 1))
                    [ev_ok 2; ev_network_error]))).*1 =
    replicate k (request_body ex_loop false).
Proof.
  destruct (sticky_until_first_success ex_loop [ev_network_error] (ev_ok 1)
              {| ops := []; counts := []; pos := 1 |}
              [ev_ok 2; ev_network_error])
    as (_ & _ & H & _).
  - reflexivity.
  - reflexivity.
  - repeat constructor; discriminate.
  - reflexivity.
  - exact H.
Defined.

(** C9 as stated fails: after a first turn whose request fails, the request
    of the second turn carries the sticky parameters again. *)
Lemma sticky_resent_after_failure :
  has_sticky <$>
    (requests (new_actions ex_loop
       (syncLoop_run ex_loop [ev_network_error; ev_network_error]))).*1
  = [true; true] /\
  omits_sticky <$>
    (requests (new_actions ex_loop
       (syncLoop_run ex_loop [ev_network_error; ev_network_error]))).*1
  = [false; false].
Proof. by vm_compute. Qed.

(** * Further properties of the reconciler *)

(** ** The range tracker *)

Lemma range_covers_spec r i :
  range_covers r i = true <->
  exists lo hi, r !! 0%nat = Some lo /\ r !! 1%nat = Some hi /\ lo <= i <= hi.
Proof.
  unfold range_covers. destruct (r !! 0%nat) as [lo|], (r !! 1%nat) as [hi|].
  - rewrite andb_true_iff, !Z.leb_le. split.
    + intros H. by exists lo, hi.
    + intros (lo' & hi' & [= <-] & [= <-] & H). done.
  - split; [done|]. by intros (? & ? & _ & ? & _).
  - split; [done|]. by intros (? & ? & ? & _).
  - split; [done|]. by intros (? & ? & ? & _).
Qed.

Lemma indexInRange_foldl rgs i acc :
  foldl (fun isInRange r => if range_covers r i then true else isInRange)
        acc rgs = true <->
  acc = true \/ exists r, r ∈ rgs /\ range_covers r i = true.
Proof.
  revert acc. induction rgs as [|r rgs IH]; intros acc; simpl.
  - split; [auto|]. intros [H|(r & Hr & _)]; [done|]. by apply elem_of_nil in Hr.
  - rewrite IH. split.
    + intros [H|(r' & Hr' & Hc)].
      * destruct (range_covers r i) eqn:Hc; [|by left].
        right. exists r. split; [left|done].
      * right. exists r'. split; [by right|done].
    + intros [->|(r' & Hr' & Hc)].
      * left. by destruct (range_covers r i).
      * apply elem_of_cons in Hr' as [->|Hr'].
        -- left. by rewrite Hc.
        -- right. by exists r'.
Qed.

(** X1.  [indexInRange] answers true exactly when some tracked range has both
    bounds and holds the index between them, bounds included; with no ranges,
    or with ranges that lack a bound, the answer is false. *)
Theorem indexInRange_spec rgs i :
  indexInRange rgs i = true <->
  exists r lo hi, r ∈ rgs /\ r !! 0%nat = Some lo /\ r !! 1%nat = Some hi /\
                  lo <= i <= hi.
Proof.
  unfold indexInRange. rewrite indexInRange_foldl. split.
  - intros [H|(r & Hr & Hc)]; [done|].
    apply range_covers_spec in Hc as (lo & hi & H0 & H1 & Hi).
    by exists r, lo, hi.
  - intros (r & lo & hi & Hr & H0 & H1 & Hi). right. exists r. split; [done|].
    apply range_covers_spec. by exists lo, hi.
Qed.

(** ** INVALIDATE *)

Lemma invalidate_loop_lookup fuel : forall hi j m i,
  invalidate_loop fuel hi j m !! i =
  if decide (j <= i <= hi /\ i < j + Z.of_nat fuel) then None else m !! i.
Proof.
  induction fuel as [|fuel IH]; intros hi j m i; simpl.
  { case_decide; [lia|done]. }
  destruct (Z.leb_spec j hi).
  - rewrite IH. unfold js_delete.
    destruct (decide (i = j)) as [->|Hne].
    + rewrite lookup_delete_eq. repeat case_decide; try done; lia.
    + rewrite lookup_delete_ne by done. repeat case_decide; try done; lia.
  - case_decide; [lia|done].
Qed.

Lemma op_INVALIDATE_lookup o st lo hi extra i :
  range o = Some (lo :: hi :: extra) ->
  indexToRoomID (op_INVALIDATE o st) !! i =
  if decide (lo <= i <= hi) then None else indexToRoomID st !! i.
Proof.
  intros Hr. unfold op_INVALIDATE. rewrite Hr. simpl.
  rewrite invalidate_loop_lookup. repeat case_decide; try done; lia.
Qed.

(** In exact integers, an INVALIDATE with range [[lo,hi]] removes every key
    from [lo] to [hi] and leaves the rest alone; a second one changes
    nothing. *)
Lemma op_INVALIDATE_effect rgs st o lo hi extra :
  op o = "INVALIDATE" -> range o = Some (lo :: hi :: extra) ->
  let st' := process_op rgs st o in
  (forall j, lo <= j <= hi -> indexToRoomID st' !! j = None) /\
  (forall j, ~ (lo <= j <= hi) ->
     indexToRoomID st' !! j = indexToRoomID st !! j) /\
  roomUpdates st' = roomUpdates st /\
  gapIndex st' = gapIndex st /\
  process_op rgs st' o = st'.
Proof.
  intros Ho Hr st'. unfold st'. rewrite !process_op_INVALIDATE by done.
  split; [|split].
  - intros j Hj. rewrite (op_INVALIDATE_lookup o st lo hi extra) by done.
    by rewrite decide_True.
  - intros j Hj. rewrite (op_INVALIDATE_lookup o st lo hi extra) by done.
    by rewrite decide_False.
  - assert (Hm : indexToRoomID (op_INVALIDATE o (op_INVALIDATE o st)) =
                 indexToRoomID (op_INVALIDATE o st)).
    { apply map_eq. intros j.
      rewrite !(op_INVALIDATE_lookup o _ lo hi extra) by done.
      by case_decide. }
    unfold op_INVALIDATE in *. rewrite Hr in *. simpl in *.
    repeat split. by rewrite Hm.
Qed.


(** ** INSERT: the shift *)

Lemma js_get_set_ne k k' v m : k <> k' -> js_get (js_set k v m) k' = js_get m k'.
Proof. intros H. unfold js_get, js_set. by rewrite lookup_insert_ne. Qed.

Ltac contra_rng :=
  exfalso;
  match goal with Hn : ~ _ |- _ => apply Hn end;
  repeat match goal with H : _ /\ _ |- _ => destruct H end;
  repeat split; (lia || done).

(** The shift towards higher indices reads every left neighbour before it is
    overwritten, so each written position gets the value its neighbour had
    before the loop. *)
Lemma shift_right_lookup fuel rgs idx : forall j m i,
  shift_right fuel rgs idx j m !! i =
  if decide (idx < i <= j /\ j - Z.of_nat fuel < i /\ indexInRange rgs i = true)
  then Some (js_get m (i - 1)) else m !! i.
Proof.
  induction fuel as [|fuel IH]; intros j m i; simpl.
  { case_decide; [lia|done]. }
  destruct (Z.gtb_spec j idx) as [Hgt|Hle]; [|case_decide; [lia|done]].
  rewrite IH. destruct (decide (i = j)) as [->|Hne].
  - rewrite decide_False by lia.
    destruct (indexInRange rgs j) eqn:Hin.
    + unfold js_set. rewrite lookup_insert_eq.
      rewrite decide_True; [done|]. repeat split; (lia || done).
    + rewrite decide_False; [done|]. by intros (_ & _ & ?).
  - assert (Hm : (if indexInRange rgs j then js_set j (js_get m (j - 1)) m else m)
                 !! i = m !! i).
    { destruct (indexInRange rgs j); [|done].
      unfold js_set. by rewrite lookup_insert_ne. }
    rewrite Hm. repeat case_decide; try done.
    + f_equal. destruct (indexInRange rgs j); [|done].
      apply js_get_set_ne. lia.
    + contra_rng.
    + contra_rng.
Qed.

(** The shift towards lower indices, likewise, reads every right neighbour
    before it is overwritten. *)
Lemma shift_left_lookup fuel rgs idx : forall j m i,
  shift_left fuel rgs idx j m !! i =
  if decide (j <= i < idx /\ i < j + Z.of_nat fuel /\ indexInRange rgs i = true)
  then Some (js_get m (i + 1)) else m !! i.
Proof.
  induction fuel as [|fuel IH]; intros j m i; simpl.
  { case_decide; [lia|done]. }
  destruct (Z.ltb_spec j idx) as [Hlt|Hge]; [|case_decide; [lia|done]].
  rewrite IH. destruct (decide (i = j)) as [->|Hne].
  - rewrite decide_False by lia.
    destruct (indexInRange rgs j) eqn:Hin.
    + unfold js_set. rewrite lookup_insert_eq.
      rewrite decide_True; [done|]. repeat split; (lia || done).
    + rewrite decide_False; [done|]. by intros (_ & _ & ?).
  - assert (Hm : (if indexInRange rgs j then js_set j (js_get m (j + 1)) m else m)
                 !! i = m !! i).
    { destruct (indexInRange rgs j); [|done].
      unfold js_set. by rewrite lookup_insert_ne. }
    rewrite Hm. repeat case_decide; try done.
    + f_equal. destruct (indexInRange rgs j); [|done].
      apply js_get_set_ne. lia.
    + contra_rng.
    + contra_rng.
Qed.

Lemma shift_lookup rgs gap idx m i :
  shift rgs gap idx m !! i =
  if decide (idx < i <= gap /\ indexInRange rgs i = true)
  then Some (js_get m (i - 1))
  else if decide (gap <= i < idx /\ indexInRange rgs i = true)
       then Some (js_get m (i + 1))
       else m !! i.
Proof.
  unfold shift. destruct (Z.gtb_spec gap idx); [|destruct (Z.ltb_spec gap idx)].
  - rewrite shift_right_lookup.
    rewrite (decide_False (P := gap <= i < idx /\ _)) by lia.
    repeat case_decide; try done; contra_rng.
  - rewrite shift_left_lookup.
    rewrite (decide_False (P := idx < i <= gap /\ _)) by lia.
    repeat case_decide; try done; contra_rng.
  - rewrite !decide_False by lia. done.
Qed.



(** In exact integers, an INSERT at an occupied index [idx] with the gap
    further up the list ([gap < idx]): every tracked position [j] with
    [gap <= j < idx] takes what position [j+1] held. *)
Lemma op_INSERT_higher_gap rgs st o idx r x :
  op o = "INSERT" -> index o = Some idx -> room o = Some r ->
  indexToRoomID st !! idx = Some (Some x) -> x <> EmptyString ->
  0 <= gapIndex st -> gapIndex st < idx ->
  let st' := process_op rgs st o in
  indexToRoomID st' !! idx = Some (Some (room_id r)) /\
  (forall j, gapIndex st <= j < idx -> indexInRange rgs j = true ->
     indexToRoomID st' !! j = Some (js_get (indexToRoomID st) (j + 1))) /\
  (forall j, j <> idx ->
     ~ (gapIndex st <= j < idx /\ indexInRange rgs j = true) ->
     indexToRoomID st' !! j = indexToRoomID st !! j) /\
  roomUpdates st' = roomUpdates st ++ [r] /\
  gapIndex st' = gapIndex st.
Proof.
  intros Ho Hi Hr Hm Hx H0 Hgap st'. unfold st'.
  rewrite (op_INSERT_shifts rgs st o idx r x) by done. simpl. unfold js_set.
  split; [apply lookup_insert_eq|]. split; [|split; [|done]].
  - intros j Hj Hin. rewrite lookup_insert_ne by lia.
    rewrite shift_lookup. rewrite decide_False by lia. by rewrite decide_True.
  - intros j Hne Hj. rewrite lookup_insert_ne by done.
    rewrite shift_lookup. rewrite decide_False by lia.
    by rewrite decide_False.
Qed.


(** X5.  An INSERT writes no position other than its own target that lies
    outside every tracked range: whatever the map, the gap and the fields of
    the operation, such a position keeps its mapping (and a key that was
    absent stays absent). *)
Theorem insert_leaves_untracked_positions rgs st o j :
  op o = "INSERT" -> index o <> Some j -> indexInRange rgs j = false ->
  indexToRoomID (process_op rgs st o) !! j = indexToRoomID st !! j.
Proof.
  intros Ho Hj Hin. rewrite process_op_INSERT by done. unfold op_INSERT.
  destruct (index o) as [idx|]; [|done]. destruct (room o) as [r|]; [|done].
  assert (Hne : idx <> j) by congruence.
  destruct (truthy _); [destruct (_ <? 0); [done|]|]; simpl; unfold js_set;
    rewrite lookup_insert_ne by done; [|done].
  rewrite shift_lookup, Hin. by repeat (rewrite decide_False by (by intros [_ ?])).
Qed.

Lemma insert_leaves_untracked_positions_witness :
  indexToRoomID
    (process_op [[0; 2]; [6; 8]]
       (process_op [[0; 2]; [6; 8]] (init_state example_map) (opDELETE 7))
       (opINSERT 0 (mkRoom "g"))) !! 3 = None.
Proof.
  rewrite (insert_leaves_untracked_positions [[0; 2]; [6; 8]] _
             (opINSERT 0 (mkRoom "g")) 3); [by vm_compute | reflexivity | | ].
  - discriminate.
  - by vm_compute.
Defined.

(** ** The update list *)

(** The rooms an operation carries. *)
Lemma process_op_updates rgs st o :
  exists news,
    roomUpdates (process_op rgs st o) = roomUpdates st ++ news /\
    Forall (fun r => room o = Some r \/
                     exists rs, rooms o = Some rs /\ r ∈ rs) news.
Proof.
  unfold process_op.
  destruct (String.eqb (op o) "SYNC").
  { unfold op_SYNC.
    destruct (range o) as [rg|] eqn:Hrg, (rooms o) as [rs|] eqn:Hrs;
      try (exists []; by rewrite app_nil_r).
    destruct (rg !! 0%nat) as [lo|] eqn:H0, (rg !! 1%nat) as [hi|] eqn:H1;
      try (exists []; by rewrite app_nil_r).
    pose proof (sync_loop_closed (Z.to_nat (hi - lo + 1)) lo hi rs 0
                  (indexToRoomID st) (roomUpdates st)) as H.
    replace (lo + Z.of_nat 0) with lo in H by lia. rewrite H. simpl.
    eexists. split; [reflexivity|].
    apply Forall_forall. intros r Hr. right. exists rs. split; [done|].
    rewrite drop_0 in Hr. by apply elem_of_take in Hr as (? & ?%list_elem_of_lookup_2 & _). }
  destruct (String.eqb (op o) "INVALIDATE").
  { exists []. rewrite app_nil_r. unfold op_INVALIDATE.
    by repeat case_match. }
  destruct (String.eqb (op o) "INSERT").
  { unfold op_INSERT. destruct (index o) as [idx|], (room o) as [r|];
      try (exists []; by rewrite app_nil_r).
    destruct (truthy _); [destruct (_ <? 0)|];
      try (exists []; by rewrite app_nil_r);
      exists [r]; (split; [done|]); repeat constructor. }
  destruct (String.eqb (op o) "DELETE").
  { exists []. rewrite app_nil_r. unfold op_DELETE. by repeat case_match. }
  destruct (String.eqb (op o) "UPDATE").
  { unfold op_UPDATE. destruct (index o) as [idx|], (room o) as [r|];
      try (exists []; by rewrite app_nil_r).
    exists [r]. split; [done|]. repeat constructor. }
  exists []. by rewrite app_nil_r.
Qed.

Lemma process_from_updates rgs os : forall st,
  exists news,
    roomUpdates (process_from rgs st os) = roomUpdates st ++ news /\
    Forall (fun r => exists o, o ∈ os /\
                     (room o = Some r \/
                      exists rs, rooms o = Some rs /\ r ∈ rs)) news.
Proof.
  induction os as [|o os IH]; intros st.
  { exists []. by rewrite app_nil_r. }
  rewrite process_from_cons.
  destruct (process_op_updates rgs st o) as (n1 & H1 & F1).
  destruct (IH (process_op rgs st o)) as (n2 & H2 & F2).
  exists (n1 ++ n2). split.
  { by rewrite H2, H1, app_assoc. }
  apply Forall_app. split.
  - eapply Forall_impl; [exact F1|]. intros r Hr. exists o. split; [left|done].
  - eapply Forall_impl; [exact F2|]. intros r (o' & Ho' & Hr).
    exists o'. split; [by right|done].
Qed.

(** X6.  The update list only grows, at its end, and only by rooms the batch
    carries: the updates of a batch begin with the updates of each of its
    prefixes, and every update is the [room] of an operation of the batch or
    one of its [rooms]. *)
Theorem updates_come_from_the_batch_in_order rgs m os1 os2 :
  (processOps rgs m os1).2 `prefix_of` (processOps rgs m (os1 ++ os2)).2 /\
  Forall (fun r => exists o, o ∈ os1 /\
                   (room o = Some r \/
                    exists rs, rooms o = Some rs /\ r ∈ rs))
         (processOps rgs m os1).2.
Proof.
  rewrite !processOps_unfold. simpl. split.
  - rewrite process_from_app.
    destruct (process_from_updates rgs os2
                (process_from rgs (init_state m) os1)) as (news & -> & _).
    by exists news.
  - destruct (process_from_updates rgs os1 (init_state m)) as (news & -> & F).
    done.
Qed.

(** ** INVALIDATE followed by SYNC *)

(** In exact integers, the batch [INVALIDATE [lo,hi]; SYNC [lo,hi] rooms]
    replaces the range. *)
Lemma invalidate_then_sync_exact rgs m lo hi rs :
  let res := processOps rgs m [opINVALIDATE [lo; hi]; opSYNC [lo; hi] rs] in
  (forall j, lo <= j <= hi ->
     res.1 !! j = (fun r => Some (room_id r)) <$> rs !! Z.to_nat (j - lo)) /\
  (forall j, ~ (lo <= j <= hi) -> res.1 !! j = m !! j) /\
  res.2 = take (Z.to_nat (hi - lo + 1)) rs.
Proof.
  intros res. unfold res. rewrite processOps_unfold.
  rewrite !process_from_cons.
  change (process_from rgs ?st []) with st.
  rewrite (process_op_SYNC rgs _ (opSYNC [lo; hi] rs)) by done.
  rewrite (op_SYNC_closed _ _ lo hi [] rs) by done.
  rewrite (process_op_INVALIDATE rgs _ (opINVALIDATE [lo; hi])) by done.
  cbn [fst snd indexToRoomID roomUpdates].
  split; [|split].
  3: { unfold op_INVALIDATE. simpl. done. }
  - intros j Hj. rewrite write_rooms_lookup.
    rewrite (op_INVALIDATE_lookup _ _ lo hi []) by done.
    rewrite (decide_True (P := lo <= j <= hi)) by done.
    case_decide as Hc.
    + rewrite length_take in Hc. rewrite lookup_take_lt by lia.
      destruct (rs !! Z.to_nat (j - lo)) eqn:E; [done|].
      apply lookup_ge_None in E. lia.
    + rewrite length_take in Hc.
      rewrite lookup_ge_None_2; [done|]. lia.
  - intros j Hj. rewrite write_rooms_lookup.
    rewrite (op_INVALIDATE_lookup _ _ lo hi []) by done.
    rewrite (decide_False (P := lo <= j <= hi)) by done.
    rewrite decide_False; [done|]. rewrite length_take. lia.
Qed.

(** * The reconciler with the numbers of the code *)

(** ** Doubles that are exact *)

Lemma js_round_exact z :
  - 9007199254740992 <= z <= 9007199254740992 -> js_round z = z.
Proof.
  intros H. unfold js_round.
  destruct (Z.leb_spec (Z.abs z) 9007199254740992); [done | lia].
Qed.

Lemma js_add_exact a b :
  - 9007199254740992 <= a + b <= 9007199254740992 -> js_add a b = a + b.
Proof. apply js_round_exact. Qed.

Lemma js_sub_exact a b :
  - 9007199254740992 <= a - b <= 9007199254740992 -> js_sub a b = a - b.
Proof. apply js_round_exact. Qed.

(** ** Between safe integers the loops count as in exact integers *)

Lemma sync_loop_js_exact fuel : forall lo hi rs j m ups,
  0 <= lo -> lo <= j -> hi <= MAX_SAFE_INTEGER ->
  (Z.to_nat (hi - j + 1) < fuel)%nat ->
  sync_loop_js fuel lo hi rs j m ups =
  Some (sync_loop (Z.to_nat (hi - j + 1)) lo hi rs j m ups).
Proof.
  unfold MAX_SAFE_INTEGER.
  induction fuel as [|fuel IH]; intros lo hi rs j m ups Hlo Hj Hhi Hf; [lia|].
  simpl. destruct (Z.leb_spec j hi) as [Hle|Hgt].
  - replace (Z.to_nat (hi - j + 1)) with (S (Z.to_nat (hi - (j + 1) + 1)))
      by lia.
    simpl. rewrite (proj2 (Z.leb_le _ _) Hle).
    rewrite js_sub_exact by lia. unfold js_index.
    rewrite (proj2 (Z.ltb_ge _ _)) by lia.
    destruct (rs !! Z.to_nat (j - lo)); [|done].
    rewrite js_add_exact by lia. apply IH; lia.
  - replace (Z.to_nat (hi - j + 1)) with 0%nat by lia. done.
Qed.

Lemma invalidate_loop_js_exact fuel : forall hi j m,
  - MAX_SAFE_INTEGER <= j -> hi <= MAX_SAFE_INTEGER ->
  (Z.to_nat (hi - j + 1) < fuel)%nat ->
  invalidate_loop_js fuel hi j m =
  Some (invalidate_loop (Z.to_nat (hi - j + 1)) hi j m).
Proof.
  unfold MAX_SAFE_INTEGER.
  induction fuel as [|fuel IH]; intros hi j m Hj Hhi Hf; [lia|].
  simpl. destruct (Z.leb_spec j hi) as [Hle|Hgt].
  - replace (Z.to_nat (hi - j + 1)) with (S (Z.to_nat (hi - (j + 1) + 1)))
      by lia.
    simpl. rewrite (proj2 (Z.leb_le _ _) Hle).
    rewrite js_add_exact by lia. apply IH; lia.
  - replace (Z.to_nat (hi - j + 1)) with 0%nat by lia. done.
Qed.

Lemma shift_right_js_exact fuel rgs : forall idx j m,
  - MAX_SAFE_INTEGER <= idx -> j <= MAX_SAFE_INTEGER ->
  (Z.to_nat (j - idx) < fuel)%nat ->
  shift_right_js fuel rgs idx j m =
  Some (shift_right (Z.to_nat (j - idx)) rgs idx j m).
Proof.
  unfold MAX_SAFE_INTEGER.
  induction fuel as [|fuel IH]; intros idx j m Hidx Hj Hf; [lia|].
  simpl. destruct (Z.gtb_spec j idx) as [Hgt|Hle].
  - replace (Z.to_nat (j - idx)) with (S (Z.to_nat (j - 1 - idx))) by lia.
    simpl. rewrite (proj2 (Z.gtb_gt _ _)) by lia.
    rewrite js_sub_exact by lia. apply IH; lia.
  - replace (Z.to_nat (j - idx)) with 0%nat by lia. done.
Qed.

Lemma shift_left_js_exact fuel rgs : forall idx j m,
  - MAX_SAFE_INTEGER <= j -> idx <= MAX_SAFE_INTEGER ->
  (Z.to_nat (idx - j) < fuel)%nat ->
  shift_left_js fuel rgs idx j m =
  Some (shift_left (Z.to_nat (idx - j)) rgs idx j m).
Proof.
  unfold MAX_SAFE_INTEGER.
  induction fuel as [|fuel IH]; intros idx j m Hj Hidx Hf; [lia|].
  simpl. destruct (Z.ltb_spec j idx) as [Hlt|Hge].
  - replace (Z.to_nat (idx - j)) with (S (Z.to_nat (idx - (j + 1)))) by lia.
    simpl. rewrite (proj2 (Z.ltb_lt _ _)) by lia.
    rewrite js_add_exact by lia. apply IH; lia.
  - replace (Z.to_nat (idx - j)) with 0%nat by lia. done.
Qed.

Lemma shift_js_exact fuel rgs gap idx m :
  safe_integer gap -> safe_integer idx ->
  (Z.to_nat (Z.abs (gap - idx)) < fuel)%nat ->
  shift_js fuel rgs gap idx m = Some (shift rgs gap idx m).
Proof.
  unfold safe_integer, shift_js, shift. intros Hg Hi Hf.
  destruct (Z.gtb_spec gap idx); [|destruct (Z.ltb_spec gap idx)].
  - apply shift_right_js_exact; lia.
  - apply shift_left_js_exact; lia.
  - done.
Qed.

(** ** One operation *)

Lemma process_op_js_SYNC fuel rgs st o lo hi extra rs :
  op o = "SYNC" -> range o = Some (lo :: hi :: extra) -> rooms o = Some rs ->
  0 <= lo -> hi <= MAX_SAFE_INTEGER ->
  (Z.to_nat (hi - lo + 1) < fuel)%nat ->
  process_op_js fuel rgs st o = Some (process_op rgs st o).
Proof.
  intros Ho Hrg Hrs Hlo Hhi Hf. unfold process_op_js, process_op, op_SYNC.
  rewrite Ho, Hrg, Hrs. simpl.
  rewrite sync_loop_js_exact by (done || lia).
  by destruct (sync_loop _ _ _ _ _ _ _).
Qed.

Lemma process_op_js_INVALIDATE fuel rgs st o lo hi extra :
  op o = "INVALIDATE" -> range o = Some (lo :: hi :: extra) ->
  - MAX_SAFE_INTEGER <= lo -> hi <= MAX_SAFE_INTEGER ->
  (Z.to_nat (hi - lo + 1) < fuel)%nat ->
  process_op_js fuel rgs st o = Some (process_op rgs st o).
Proof.
  intros Ho Hrg Hlo Hhi Hf. unfold process_op_js, process_op, op_INVALIDATE.
  rewrite Ho, Hrg. simpl.
  by rewrite invalidate_loop_js_exact.
Qed.

Lemma process_op_js_INSERT fuel rgs st o idx :
  op o = "INSERT" -> index o = Some idx ->
  safe_integer idx -> safe_integer (gapIndex st) ->
  (Z.to_nat (Z.abs (gapIndex st - idx)) < fuel)%nat ->
  process_op_js fuel rgs st o = Some (process_op rgs st o).
Proof.
  intros Ho Hi Hidx Hgap Hf. unfold process_op_js, process_op, op_INSERT.
  rewrite Ho, Hi. simpl. destruct (room o) as [rm|]; [|done].
  destruct (truthy _); [|done]. destruct (_ <? 0); [done|].
  by rewrite shift_js_exact.
Qed.






Lemma process_op_js_DELETE fuel rgs st o :
  op o = "DELETE" -> process_op_js fuel rgs st o = Some (op_DELETE o st).
Proof. intros H. unfold process_op_js. rewrite H. reflexivity. Qed.

(** Only a DELETE carrying its index changes the gap index. *)
Lemma process_op_js_gap fuel rgs st o st' :
  process_op_js fuel rgs st o = Some st' ->
  gapIndex st' =
  if is_delete o then default (gapIndex st) (index o) else gapIndex st.
Proof.
  unfold is_delete, process_op_js, op_DELETE, op_UPDATE.
  destruct (String.eqb (op o) "DELETE") eqn:Hd.
  - apply String.eqb_eq in Hd. rewrite Hd. simpl. intros [= <-].
    destruct (index o); reflexivity.
  - simpl. intros H.
    repeat case_match; simplify_eq; reflexivity.
Qed.

(** ** A batch *)

Lemma process_from_js_app fuel rgs os1 os2 : forall st,
  process_from_js fuel rgs st (os1 ++ os2) =
  match process_from_js fuel rgs st os1 with
  | Some st' => process_from_js fuel rgs st' os2
  | None => None
  end.
Proof.
  induction os1 as [|o os1 IH]; intros st; simpl; [done|].
  destruct (process_op_js fuel rgs st o); [apply IH | done].
Qed.

Lemma process_from_js_gap_no_delete fuel rgs os : forall st st',
  process_from_js fuel rgs st os = Some st' ->
  Forall (fun o => is_delete o = false) os ->
  gapIndex st' = gapIndex st.
Proof.
  induction os as [|o os IH]; intros st st' H F; simpl in H.
  { by injection H as <-. }
  apply Forall_cons in F as [Ho F].
  destruct (process_op_js fuel rgs st o) as [s1|] eqn:E; [|done].
  rewrite (IH _ _ H F). apply process_op_js_gap in E. by rewrite Ho in E.
Qed.

Lemma process_op_js_exact fuel rgs st o :
  safe_positions o -> safe_integer (gapIndex st) ->
  (enough_fuel <= fuel)%nat ->
  process_op_js fuel rgs st o = Some (process_op rgs st o).
Proof.
  unfold enough_fuel. intros [Hrg Hidx] Hgap Hf.
  destruct (String.eqb (op o) "SYNC") eqn:E1.
  { apply String.eqb_eq in E1.
    destruct (range o) as [[|lo [|hi extra]]|] eqn:Hr;
      try (by unfold process_op_js, process_op, op_SYNC; rewrite E1, Hr;
           simpl; destruct (rooms o)).
    destruct (rooms o) as [rs|] eqn:Hrs;
      [|by unfold process_op_js, process_op, op_SYNC; rewrite E1, Hr, Hrs].
    specialize (Hrg _ eq_refl).
    apply Forall_cons in Hrg as [Hlo Hrg]. apply Forall_cons in Hrg as [Hhi _].
    unfold list_position, MAX_SAFE_INTEGER in *.
    eapply process_op_js_SYNC; try done; unfold MAX_SAFE_INTEGER; lia. }
  destruct (String.eqb (op o) "INVALIDATE") eqn:E2.
  { apply String.eqb_eq in E2.
    destruct (range o) as [[|lo [|hi extra]]|] eqn:Hr;
      try (by unfold process_op_js, process_op, op_INVALIDATE; rewrite E2, Hr).
    specialize (Hrg _ eq_refl).
    apply Forall_cons in Hrg as [Hlo Hrg]. apply Forall_cons in Hrg as [Hhi _].
    unfold list_position, MAX_SAFE_INTEGER in *.
    eapply process_op_js_INVALIDATE; try done; unfold MAX_SAFE_INTEGER; lia. }
  destruct (String.eqb (op o) "INSERT") eqn:E3.
  { apply String.eqb_eq in E3.
    destruct (index o) as [idx|] eqn:Hi;
      [|by unfold process_op_js, process_op, op_INSERT; rewrite E3, Hi].
    specialize (Hidx _ eq_refl).
    apply (process_op_js_INSERT _ _ _ _ idx); try done.
    unfold safe_integer, MAX_SAFE_INTEGER in *. lia. }
  unfold process_op_js, process_op. rewrite E1, E2, E3.
  by repeat case_match.
Qed.

Lemma process_op_gap_safe rgs st o :
  safe_positions o -> safe_integer (gapIndex st) ->
  safe_integer (gapIndex (process_op rgs st o)).
Proof.
  intros [_ Hidx] Hgap. rewrite process_op_gap.
  destruct (is_delete o); [|done].
  destruct (index o) as [i|]; [by apply Hidx | done].
Qed.

Lemma process_from_js_exact fuel rgs os : forall st,
  Forall safe_positions os -> safe_integer (gapIndex st) ->
  (enough_fuel <= fuel)%nat ->
  process_from_js fuel rgs st os = Some (process_from rgs st os).
Proof.
  induction os as [|o os IH]; intros st F Hgap Hf; simpl; [done|].
  apply Forall_cons in F as [Ho F].
  rewrite process_op_js_exact by done.
  apply IH; [done | by apply process_op_gap_safe | done].
Qed.

Lemma processOps_js_exact fuel rgs m os :
  Forall safe_positions os -> (enough_fuel <= fuel)%nat ->
  processOps_js fuel rgs m os = Some (processOps rgs m os).
Proof.
  intros F Hf. unfold processOps_js.
  rewrite process_from_js_exact; [done | done | | done].
  unfold safe_integer, MAX_SAFE_INTEGER. simpl. lia.
Qed.

(** ** More fuel does not change a result *)

Lemma sync_loop_js_mono fuel : forall fuel' lo hi rs j m ups res,
  sync_loop_js fuel lo hi rs j m ups = Some res -> (fuel <= fuel')%nat ->
  sync_loop_js fuel' lo hi rs j m ups = Some res.
Proof.
  induction fuel as [|fuel IH]; intros [|fuel'] lo hi rs j m ups res H Hf;
    simpl in *; try done; try lia.
  destruct (j <=? hi); [|done].
  destruct (js_index rs (js_sub j lo)); [|done].
  apply IH; [done | lia].
Qed.

Lemma invalidate_loop_js_mono fuel : forall fuel' hi j m res,
  invalidate_loop_js fuel hi j m = Some res -> (fuel <= fuel')%nat ->
  invalidate_loop_js fuel' hi j m = Some res.
Proof.
  induction fuel as [|fuel IH]; intros [|fuel'] hi j m res H Hf;
    simpl in *; try done; try lia.
  destruct (j <=? hi); [|done]. apply IH; [done | lia].
Qed.

Lemma shift_right_js_mono fuel rgs : forall fuel' idx j m res,
  shift_right_js fuel rgs idx j m = Some res -> (fuel <= fuel')%nat ->
  shift_right_js fuel' rgs idx j m = Some res.
Proof.
  induction fuel as [|fuel IH]; intros [|fuel'] idx j m res H Hf;
    simpl in *; try done; try lia.
  destruct (j >? idx); [|done]. apply IH; [done | lia].
Qed.

Lemma shift_left_js_mono fuel rgs : forall fuel' idx j m res,
  shift_left_js fuel rgs idx j m = Some res -> (fuel <= fuel')%nat ->
  shift_left_js fuel' rgs idx j m = Some res.
Proof.
  induction fuel as [|fuel IH]; intros [|fuel'] idx j m res H Hf;
    simpl in *; try done; try lia.
  destruct (j <? idx); [|done]. apply IH; [done | lia].
Qed.

Lemma process_op_js_mono fuel fuel' rgs st o st' :
  process_op_js fuel rgs st o = Some st' -> (fuel <= fuel')%nat ->
  process_op_js fuel' rgs st o = Some st'.
Proof.
  unfold process_op_js. intros H Hf.
  destruct (String.eqb (op o) "SYNC").
  { destruct (range o) as [rg|]; [|done]. destruct (rooms o) as [rs|]; [|done].
    destruct (rg !! 0%nat) as [lo|]; [|done].
    destruct (rg !! 1%nat) as [hi|]; [|done].
    destruct (sync_loop_js fuel _ _ _ _ _ _) as [[m' ups']|] eqn:E; [|done].
    by rewrite (sync_loop_js_mono _ fuel' _ _ _ _ _ _ _ E Hf). }
  destruct (String.eqb (op o) "INVALIDATE").
  { destruct (range o) as [rg|]; [|done].
    destruct (rg !! 0%nat) as [lo|]; [|done].
    destruct (rg !! 1%nat) as [hi|]; [|done].
    destruct (invalidate_loop_js fuel _ _ _) as [m'|] eqn:E; [|done].
    by rewrite (invalidate_loop_js_mono _ fuel' _ _ _ _ E Hf). }
  destruct (String.eqb (op o) "INSERT"); [|done].
  destruct (index o) as [idx|]; [|done]. destruct (room o) as [rm|]; [|done].
  destruct (truthy _); [|done]. destruct (_ <? 0); [done|].
  unfold shift_js in *.
  destruct (_ >? _).
  { destruct (shift_right_js fuel _ _ _ _) as [m'|] eqn:E; [|done].
    by rewrite (shift_right_js_mono _ _ fuel' _ _ _ _ E Hf). }
  destruct (_ <? _); [|done].
  destruct (shift_left_js fuel _ _ _ _) as [m'|] eqn:E; [|done].
  by rewrite (shift_left_js_mono _ _ fuel' _ _ _ _ E Hf).
Qed.

Lemma process_from_js_mono fuel fuel' rgs os : forall st st',
  process_from_js fuel rgs st os = Some st' -> (fuel <= fuel')%nat ->
  process_from_js fuel' rgs st os = Some st'.
Proof.
  induction os as [|o os IH]; intros st st' H Hf; simpl in *; [done|].
  destruct (process_op_js fuel rgs st o) as [s1|] eqn:E; [|done].
  rewrite (process_op_js_mono _ fuel' _ _ _ _ E Hf). by apply IH.
Qed.

(** ** Past the safe integers the loops stall *)

Lemma sync_loop_js_step fuel lo hi rs j m ups r :
  (j <=? hi) = true -> js_index rs (js_sub j lo) = Some r ->
  sync_loop_js (S fuel) lo hi rs j m ups =
  sync_loop_js fuel lo hi rs (js_add j 1) (js_set j (Some (room_id r)) m)
               (ups ++ [r]).
Proof. intros H1 H2. simpl. by rewrite H1, H2. Qed.

Lemma invalidate_loop_js_step fuel hi j m :
  (j <=? hi) = true ->
  invalidate_loop_js (S fuel) hi j m =
  invalidate_loop_js fuel hi (js_add j 1) (js_delete j m).
Proof. intros H. simpl. by rewrite H. Qed.

Lemma js_add_stalls : js_add 9007199254740992 1 = 9007199254740992.
Proof. by vm_compute. Qed.

Lemma js_sub_stalls : js_sub 9007199254740996 1 = 9007199254740996.
Proof. by vm_compute. Qed.

(** [j++] at [2^53] leaves [j] as it is: the SYNC loop reads the same room
    and appends it again, turn after turn. *)
Lemma sync_loop_js_stalls fuel : forall m ups,
  sync_loop_js fuel 9007199254740991 9007199254740992 two_rooms
               9007199254740992 m ups = None.
Proof.
  induction fuel as [|fuel IH]; intros m ups; [done|].
  rewrite (sync_loop_js_step _ _ _ _ _ _ _ (mkRoom "b")) by (by vm_compute).
  rewrite js_add_stalls. apply IH.
Qed.

Lemma invalidate_loop_js_stalls fuel : forall m,
  invalidate_loop_js fuel 9007199254740992 9007199254740992 m = None.
Proof.
  induction fuel as [|fuel IH]; intros m; [done|].
  rewrite invalidate_loop_js_step by (by vm_compute).
  rewrite js_add_stalls. apply IH.
Qed.

(** [j--] at [2^53+4] leaves [j] as it is. *)
Lemma shift_right_js_stalls fuel rgs idx : forall m,
  idx < 9007199254740996 ->
  shift_right_js fuel rgs idx 9007199254740996 m = None.
Proof.
  induction fuel as [|fuel IH]; intros m Hidx; [done|].
  simpl. rewrite (proj2 (Z.gtb_gt _ _)) by lia.
  rewrite js_sub_stalls. by apply IH.
Qed.

Lemma shift_left_js_stalls fuel rgs idx : forall m,
  9007199254740992 < idx ->
  shift_left_js fuel rgs idx 9007199254740992 m = None.
Proof.
  induction fuel as [|fuel IH]; intros m Hidx; [done|].
  simpl. rewrite (proj2 (Z.ltb_lt _ _)) by lia.
  rewrite js_add_stalls. by apply IH.
Qed.

Lemma sync_past_safe_stalls fuel rgs st :
  process_op_js fuel rgs st sync_past_safe = None.
Proof.
  unfold process_op_js, sync_past_safe, opSYNC.
  cbn [op range rooms String.eqb Ascii.eqb Bool.eqb lookup list_lookup].
  destruct fuel as [|fuel]; [done|].
  rewrite (sync_loop_js_step _ _ _ _ _ _ _ (mkRoom "a")) by (by vm_compute).
  replace (js_add 9007199254740991 1) with 9007199254740992 by (by vm_compute).
  by rewrite sync_loop_js_stalls.
Qed.

Lemma invalidate_past_safe_stalls fuel rgs st :
  process_op_js fuel rgs st invalidate_past_safe = None.
Proof.
  unfold process_op_js, invalidate_past_safe, opINVALIDATE.
  cbn [op range rooms String.eqb Ascii.eqb Bool.eqb lookup list_lookup].
  destruct fuel as [|fuel]; [done|].
  rewrite invalidate_loop_js_step by (by vm_compute).
  replace (js_add 9007199254740991 1) with 9007199254740992 by (by vm_compute).
  by rewrite invalidate_loop_js_stalls.
Qed.

(** ** SYNC and INVALIDATE *)

(** C2, for list positions.  A SYNC with range [[lo,hi]], [0 <= lo] and
    [hi <= 2^53 - 1], and [n] rooms, met with the locals [st], returns (within
    [hi - lo + 2] turns of its loop); it has written the ids of the first
    [c = min(n, hi-lo+1)] rooms at the positions [lo .. lo+c-1], appended
    exactly those rooms, in order, to the update list, and left every other
    index, in the range or not, with the mapping it had (a key that was
    absent stays absent); the gap index is untouched. *)
Theorem sync_populates_range rgs st o lo hi extra rs fuel :
  op o = "SYNC" -> range o = Some (lo :: hi :: extra) -> rooms o = Some rs ->
  0 <= lo -> hi <= MAX_SAFE_INTEGER ->
  (Z.to_nat (hi - lo + 1) < fuel)%nat ->
  let c := Z.to_nat (Z.min (Z.of_nat (length rs)) (hi - lo + 1)) in
  exists st',
    process_op_js fuel rgs st o = Some st' /\
    (forall (k : nat) r, (k < c)%nat -> rs !! k = Some r ->
       indexToRoomID st' !! (lo + Z.of_nat k) = Some (Some (room_id r))) /\
    roomUpdates st' = roomUpdates st ++ take c rs /\
    (forall j, ~ (lo <= j < lo + Z.of_nat c) ->
       indexToRoomID st' !! j = indexToRoomID st !! j) /\
    gapIndex st' = gapIndex st.
Proof.
  intros Ho Hrg Hrs Hlo Hhi Hf c. exists (process_op rgs st o).
  split; [by eapply process_op_js_SYNC|].
  by apply (op_SYNC_effect rgs st o lo hi extra rs).
Qed.

Lemma sync_populates_range_witness :
  exists st',
    process_op_js 4 [[0; 99]]
      (init_state (map_of [(0, Some "x"); (1, Some "y"); (2, Some "z")]))
      (opSYNC [0; 2] two_rooms) = Some st' /\
    indexToRoomID st' !! 0 = Some (Some "a") /\
    indexToRoomID st' !! 1 = Some (Some "b") /\
    indexToRoomID st' !! 2 = Some (Some "z") /\
    roomUpdates st' = two_rooms.
Proof.
  destruct (sync_populates_range [[0; 99]]
    (init_state (map_of [(0, Some "x"); (1, Some "y"); (2, Some "z")]))
    (opSYNC [0; 2] two_rooms) 0 2 [] two_rooms 4%nat
    eq_refl eq_refl eq_refl) as (st' & H & H1 & H2 & H3 & _).
  - lia.
  - unfold MAX_SAFE_INTEGER. lia.
  - simpl. lia.
  - exists st'. split; [exact H|]. split; [|split; [|split]].
    + exact (H1 0%nat (mkRoom "a") ltac:(simpl; lia) eq_refl).
    + exact (H1 1%nat (mkRoom "b") ltac:(simpl; lia) eq_refl).
    + rewrite (H3 2) by (simpl; lia). reflexivity.
    + exact H2.
Defined.

(** C2 as stated fails: a SYNC with range [[2^53 - 1, 2^53]] and two rooms
    does not return.  Its loop writes room [a] at [2^53 - 1] and room [b] at
    [2^53]; then [j++] leaves [j] at [2^53], and the loop appends [b] again,
    turn after turn. *)
Lemma sync_past_safe_positions_never_returns :
  ~ (exists fuel st',
       process_op_js fuel example_ranges (init_state ∅) sync_past_safe =
       Some st').
Proof. intros (fuel & st' & H). by rewrite sync_past_safe_stalls in H. Qed.

(** X2.  An INVALIDATE with range [[lo,hi]] between safe integers returns; it
    has removed every key from [lo] to [hi], whether it was there or not, and
    left every other key, the update list and the gap index alone; applying
    it a second time changes nothing. *)
Theorem invalidate_clears_range rgs st o lo hi extra fuel :
  op o = "INVALIDATE" -> range o = Some (lo :: hi :: extra) ->
  - MAX_SAFE_INTEGER <= lo -> hi <= MAX_SAFE_INTEGER ->
  (Z.to_nat (hi - lo + 1) < fuel)%nat ->
  exists st',
    process_op_js fuel rgs st o = Some st' /\
    (forall j, lo <= j <= hi -> indexToRoomID st' !! j = None) /\
    (forall j, ~ (lo <= j <= hi) ->
       indexToRoomID st' !! j = indexToRoomID st !! j) /\
    roomUpdates st' = roomUpdates st /\
    gapIndex st' = gapIndex st /\
    process_op_js fuel rgs st' o = Some st'.
Proof.
  intros Ho Hrg Hlo Hhi Hf. exists (process_op rgs st o).
  destruct (op_INVALIDATE_effect rgs st o lo hi extra Ho Hrg)
    as (H1 & H2 & H3 & H4 & H5).
  split; [by eapply process_op_js_INVALIDATE|].
  repeat (split; [done|]).
  rewrite (process_op_js_INVALIDATE fuel rgs _ o lo hi extra) by done.
  by rewrite H5.
Qed.

Lemma invalidate_clears_range_witness :
  exists st',
    process_op_js 7 example_ranges (init_state example_map)
                  (opINVALIDATE [1; 6]) = Some st' /\
    indexToRoomID st' !! 0 = Some (Some "a") /\
    indexToRoomID st' !! 2 = None /\
    indexToRoomID st' !! 6 = None /\
    indexToRoomID st' !! 7 = Some (Some "e").
Proof.
  destruct (invalidate_clears_range example_ranges (init_state example_map)
              (opINVALIDATE [1; 6]) 1 6 [] 7%nat eq_refl eq_refl)
    as (st' & H & H1 & H2 & _).
  - unfold MAX_SAFE_INTEGER. lia.
  - unfold MAX_SAFE_INTEGER. lia.
  - simpl. lia.
  - exists st'. split; [exact H|].
    rewrite (H2 0), (H1 2), (H1 6), (H2 7) by lia. by vm_compute.
Defined.

(** X7.  The batch [INVALIDATE [lo,hi]; SYNC [lo,hi] rooms] over list
    positions returns and replaces the range: afterwards a position [j] of
    the range holds the id of [rooms[j-lo]] when there is such a room and has
    no key otherwise, whatever was there before; positions outside the range
    keep their mapping, and the updates are the rooms written, in order. *)
Theorem invalidate_then_sync_replaces_range rgs m lo hi rs fuel :
  0 <= lo -> hi <= MAX_SAFE_INTEGER ->
  (Z.to_nat (hi - lo + 1) < fuel)%nat ->
  exists res,
    processOps_js fuel rgs m [opINVALIDATE [lo; hi]; opSYNC [lo; hi] rs] =
      Some res /\
    (forall j, lo <= j <= hi ->
       res.1 !! j = (fun r => Some (room_id r)) <$> rs !! Z.to_nat (j - lo)) /\
    (forall j, ~ (lo <= j <= hi) -> res.1 !! j = m !! j) /\
    res.2 = take (Z.to_nat (hi - lo + 1)) rs.
Proof.
  intros Hlo Hhi Hf.
  exists (processOps rgs m [opINVALIDATE [lo; hi]; opSYNC [lo; hi] rs]).
  split; [|apply invalidate_then_sync_exact].
  unfold processOps_js. cbn [process_from_js].
  rewrite (process_op_js_INVALIDATE fuel rgs _ _ lo hi []);
    [|done|done|unfold MAX_SAFE_INTEGER; lia|done|done].
  by rewrite (process_op_js_SYNC fuel rgs _ _ lo hi [] rs).
Qed.

Lemma invalidate_then_sync_replaces_range_witness :
  exists res,
    processOps_js 7 example_ranges example_map
      [opINVALIDATE [0; 5]; opSYNC [0; 5] two_rooms] = Some res /\
    res.1 !! 0 = Some (Some "a") /\ res.1 !! 1 = Some (Some "b") /\
    res.1 !! 2 = None /\ res.1 !! 6 = Some (Some "d") /\
    res.2 = two_rooms.
Proof.
  destruct (invalidate_then_sync_replaces_range example_ranges example_map
              0 5 two_rooms 7%nat) as (res & H & H1 & H2 & H3).
  - lia.
  - unfold MAX_SAFE_INTEGER. lia.
  - simpl. lia.
  - exists res. split; [exact H|].
    rewrite (H1 0), (H1 1), (H1 2), (H2 6), H3 by lia. by vm_compute.
Defined.

(** X17.  An INVALIDATE with range [[2^53 - 1, 2^53]] never returns, whatever
    the map: once [j] is [2^53], [j++] leaves it there and the test
    [j <= 2^53] holds for ever.  So a batch that holds such an operation
    returns no result. *)
Theorem invalidate_past_safe_positions_never_returns rgs st fuel :
  process_op_js fuel rgs st invalidate_past_safe = None /\
  forall m pre post,
    processOps_js fuel rgs m (pre ++ invalidate_past_safe :: post) = None.
Proof.
  split; [apply invalidate_past_safe_stalls|].
  intros m pre post. unfold processOps_js.
  rewrite process_from_js_app.
  destruct (process_from_js fuel rgs (init_state m) pre); [|done].
  cbn [process_from_js]. by rewrite invalidate_past_safe_stalls.
Qed.

(** ** Skipped operations *)




(** ** INSERT: the shift, and the gap that outlives it *)



(** X4.  An INSERT at an index [idx] (at most [2^53 - 1]) that holds a room
    id, with the gap further up the list ([0 <= gap < idx]), returns:
    afterwards [idx] holds the new room's id, every tracked position [j]
    with [gap <= j < idx] holds what position [j+1] held before the INSERT
    (the rooms move up the list by one), and every other position is as
    before; the room is appended to the updates. *)
Theorem insert_shifts_towards_higher_gap rgs st o idx r x fuel :
  op o = "INSERT" -> index o = Some idx -> room o = Some r ->
  indexToRoomID st !! idx = Some (Some x) -> x <> EmptyString ->
  0 <= gapIndex st -> gapIndex st < idx -> idx <= MAX_SAFE_INTEGER ->
  (Z.to_nat (idx - gapIndex st) < fuel)%nat ->
  exists st',
    process_op_js fuel rgs st o = Some st' /\
    indexToRoomID st' !! idx = Some (Some (room_id r)) /\
    (forall j, gapIndex st <= j < idx -> indexInRange rgs j = true ->
       indexToRoomID st' !! j = Some (js_get (indexToRoomID st) (j + 1))) /\
    (forall j, j <> idx ->
       ~ (gapIndex st <= j < idx /\ indexInRange rgs j = true) ->
       indexToRoomID st' !! j = indexToRoomID st !! j) /\
    roomUpdates st' = roomUpdates st ++ [r] /\
    gapIndex st' = gapIndex st.
Proof.
  intros Ho Hi Hr Hm Hx H0 Hgap Hidx Hf. exists (process_op rgs st o).
  split; [|apply (op_INSERT_higher_gap rgs st o idx r x); (done || lia)].
  apply (process_op_js_INSERT _ _ _ _ idx); try done;
    unfold safe_integer, MAX_SAFE_INTEGER in *; lia.
Qed.

Lemma insert_shifts_towards_higher_gap_witness :
  exists st',
    process_op_js 4 [[0; 99]]
      (process_op [[0; 99]] (init_state four_rooms) (opDELETE 0))
      (opINSERT 3 (mkRoom "e")) = Some st' /\
    indexToRoomID st' !! 0 = Some (Some "b") /\
    indexToRoomID st' !! 1 = Some (Some "c") /\
    indexToRoomID st' !! 2 = Some (Some "d") /\
    indexToRoomID st' !! 3 = Some (Some "e").
Proof.
  destruct (insert_shifts_towards_higher_gap [[0; 99]]
              (process_op [[0; 99]] (init_state four_rooms) (opDELETE 0))
              (opINSERT 3 (mkRoom "e")) 3 (mkRoom "e") "d" 4%nat
              eq_refl eq_refl eq_refl)
    as (st' & H & H1 & H2 & _).
  - by vm_compute.
  - discriminate.
  - simpl. lia.
  - simpl. lia.
  - unfold MAX_SAFE_INTEGER. lia.
  - simpl. lia.
  - exists st'. split; [exact H|].
    rewrite (H2 0), (H2 1), (H2 2) by (simpl; lia || by vm_compute).
    split; [by vm_compute|]. split; [by vm_compute|].
    split; [by vm_compute|]. exact H1.
Defined.

Lemma process_op_js_INSERT_stalls rgs st o idx r x fuel :
  op o = "INSERT" -> index o = Some idx -> room o = Some r ->
  indexToRoomID st !! idx = Some (Some x) -> x <> EmptyString ->
  (gapIndex st = 9007199254740996 /\ idx < 9007199254740996) \/
  (gapIndex st = 9007199254740992 /\ 9007199254740992 < idx) ->
  process_op_js fuel rgs st o = None.
Proof.
  intros Ho Hi Hr Hm Hx Hg. unfold process_op_js. rewrite Ho, Hi, Hr. simpl.
  assert (Ht : truthy (js_get (indexToRoomID st) idx) = true).
  { apply truthy_spec. exists x. unfold js_get. by rewrite Hm. }
  rewrite Ht. unfold shift_js.
  destruct Hg as [[-> Hlt] | [-> Hlt]].
  - replace (9007199254740996 <? 0) with false by done.
    rewrite (proj2 (Z.gtb_gt _ _)) by lia.
    by rewrite shift_right_js_stalls.
  - replace (9007199254740992 <? 0) with false by done.
    destruct (Z.gtb_spec 9007199254740992 idx); [lia|].
    rewrite (proj2 (Z.ltb_lt _ _)) by lia.
    by rewrite shift_left_js_stalls.
Qed.

(** X18.  An INSERT at an index that holds a room id never returns when the
    gap is [2^53 + 4] and the index is below it ([j--] leaves [j] at
    [2^53 + 4]), nor when the gap is [2^53] and the index is above it ([j++]
    leaves [j] at [2^53]). *)
Theorem insert_past_safe_positions_never_returns rgs st o idx r x fuel :
  op o = "INSERT" -> index o = Some idx -> room o = Some r ->
  indexToRoomID st !! idx = Some (Some x) -> x <> EmptyString ->
  (gapIndex st = 9007199254740996 /\ idx < 9007199254740996) \/
  (gapIndex st = 9007199254740992 /\ 9007199254740992 < idx) ->
  process_op_js fuel rgs st o = None.
Proof. apply process_op_js_INSERT_stalls. Qed.

Lemma insert_past_safe_positions_never_returns_witness :
  process_from_js 9 [[0; 99]] (init_state four_rooms)
    [opDELETE 9007199254740996; opINSERT 0 (mkRoom "e")] = None.
Proof.
  cbn [process_from_js]. rewrite process_op_js_DELETE by reflexivity.
  rewrite (insert_past_safe_positions_never_returns [[0; 99]] _
             (opINSERT 0 (mkRoom "e")) 0 (mkRoom "e") "a" 9%nat
             eq_refl eq_refl eq_refl);
    [reflexivity | by vm_compute | discriminate | ].
  left. split; [reflexivity | lia].
Defined.

(** C10, for list positions.  Only a DELETE carrying its index changes the
    gap index.  So when a DELETE at a list position [d]
    ([0 <= d <= 2^53 - 1]) is followed in the batch by operations [mid] none
    of which is a DELETE carrying an index (INSERTs that used the gap are
    among them), an INSERT that comes next and finds a room id at its target
    (a safe integer) meets the gap index [d]: it is not skipped, it shifts
    around [d] (every tracked position between its target and [d] takes the
    value of its neighbour on the target's side), stores its room, appends
    its update and leaves the gap index at [d]. *)
Theorem second_insert_reuses_gap rgs fuel st0 pre del d mid o idx r x st :
  op del = "DELETE" -> index del = Some d ->
  Forall (fun p => is_delete p = false) mid ->
  process_from_js fuel rgs st0 (pre ++ del :: mid) = Some st ->
  op o = "INSERT" -> index o = Some idx -> room o = Some r ->
  indexToRoomID st !! idx = Some (Some x) -> x <> EmptyString ->
  0 <= d <= MAX_SAFE_INTEGER -> safe_integer idx ->
  (Z.to_nat (Z.abs (d - idx)) < fuel)%nat ->
  (forall s1 p s2, process_op_js fuel rgs s1 p = Some s2 ->
     is_delete p = false -> gapIndex s2 = gapIndex s1) /\
  gapIndex st = d /\
  exists st',
    process_from_js fuel rgs st0 (pre ++ del :: mid ++ [o]) = Some st' /\
    indexToRoomID st' !! idx = Some (Some (room_id r)) /\
    (forall j, idx < j <= d -> indexInRange rgs j = true ->
       indexToRoomID st' !! j = Some (js_get (indexToRoomID st) (j - 1))) /\
    (forall j, d <= j < idx -> indexInRange rgs j = true ->
       indexToRoomID st' !! j = Some (js_get (indexToRoomID st) (j + 1))) /\
    (forall j, j <> idx ->
       ~ ((idx < j <= d \/ d <= j < idx) /\ indexInRange rgs j = true) ->
       indexToRoomID st' !! j = indexToRoomID st !! j) /\
    roomUpdates st' = roomUpdates st ++ [r] /\
    gapIndex st' = d.
Proof.
  intros Hdel Hd Hmid Hrun Ho Hi Hr Hm Hx Hdpos Hidx Hf.
  split.
  { intros s1 p s2 H Hp. apply process_op_js_gap in H. by rewrite Hp in H. }
  assert (Hgap : gapIndex st = d).
  { pose proof Hrun as H. rewrite process_from_js_app in H.
    destruct (process_from_js fuel rgs st0 pre) as [s1|]; [|done].
    cbn [process_from_js] in H.
    destruct (process_op_js fuel rgs s1 del) as [s2|] eqn:E; [|done].
    rewrite (process_from_js_gap_no_delete _ _ _ _ _ H Hmid).
    apply process_op_js_gap in E. unfold is_delete in E.
    rewrite Hdel, Hd in E. exact E. }
  split; [exact Hgap|].
  exists (process_op rgs st o).
  split.
  { replace (pre ++ del :: mid ++ [o]) with ((pre ++ del :: mid) ++ [o])
      by (by rewrite <- app_assoc).
    rewrite process_from_js_app, Hrun. cbn [process_from_js].
    rewrite (process_op_js_INSERT _ _ _ _ idx); try done.
    - rewrite Hgap. unfold safe_integer, MAX_SAFE_INTEGER in *. lia.
    - by rewrite Hgap. }
  rewrite (op_INSERT_shifts rgs st o idx r x) by (done || lia).
  rewrite Hgap. simpl. unfold js_set.
  split; [apply lookup_insert_eq|].
  split; [|split; [|split; [|done]]].
  - intros j Hj Hin. rewrite lookup_insert_ne by lia.
    rewrite shift_lookup. by rewrite decide_True.
  - intros j Hj Hin. rewrite lookup_insert_ne by lia.
    rewrite shift_lookup. rewrite decide_False by lia. by rewrite decide_True.
  - intros j Hne Hj. rewrite lookup_insert_ne by done.
    rewrite shift_lookup. by rewrite !decide_False by tauto.
Qed.

Lemma second_insert_reuses_gap_witness :
  exists st',
    process_from_js 4 [[0; 99]] (init_state four_rooms)
      ([] ++ opDELETE 3 :: [opINSERT 0 (mkRoom "e")] ++ [opINSERT 1 (mkRoom "f")])
    = Some st' /\
    indexToRoomID st' !! 0 = Some (Some "e") /\
    indexToRoomID st' !! 1 = Some (Some "f") /\
    indexToRoomID st' !! 2 = Some (Some "a") /\
    indexToRoomID st' !! 3 = Some (Some "b") /\
    roomUpdates st' = [mkRoom "e"; mkRoom "f"] /\
    gapIndex st' = 3.
Proof.
  destruct (second_insert_reuses_gap [[0; 99]] 4%nat (init_state four_rooms)
              [] (opDELETE 3) 3 [opINSERT 0 (mkRoom "e")]
              (opINSERT 1 (mkRoom "f")) 1 (mkRoom "f") "a"
              {| indexToRoomID :=
                   map_of [(0, Some "e"); (1, Some "a"); (2, Some "b");
                           (3, Some "c")];
                 roomUpdates := [mkRoom "e"];
                 gapIndex := 3 |}
              eq_refl eq_refl)
    as (_ & _ & st' & H & H1 & H2 & _ & H4 & H5 & H6).
  - by repeat constructor.
  - by vm_compute.
  - reflexivity.
  - reflexivity.
  - reflexivity.
  - by vm_compute.
  - discriminate.
  - unfold MAX_SAFE_INTEGER. lia.
  - unfold safe_integer, MAX_SAFE_INTEGER. lia.
  - simpl. lia.
  - exists st'. split; [exact H|].
    rewrite (H4 0) by (lia || (intros [? _]; lia)).
    rewrite (H2 2), (H2 3) by (lia || by vm_compute).
    rewrite H1, H5, H6. by vm_compute.
Defined.

(** C10 as stated fails for a DELETE whose index is not a list position.
    After a DELETE at [-1] the gap index is negative and the two INSERTs at
    occupied indices are skipped: the batch changes nothing.  After a DELETE
    at [2^53 + 4] the first INSERT never returns. *)
Lemma delete_outside_list_positions_gives_no_pivot :
  processOps_js 4 [[0; 99]] four_rooms
    [opDELETE (-1); opINSERT 0 (mkRoom "e"); opINSERT 1 (mkRoom "f")] =
    Some (four_rooms, []) /\
  ~ (exists fuel res,
       processOps_js fuel [[0; 99]] four_rooms
         [opDELETE 9007199254740996; opINSERT 0 (mkRoom "e");
          opINSERT 1 (mkRoom "f")] = Some res).
Proof.
  split; [by vm_compute|].
  intros (fuel & res & H). unfold processOps_js in H.
  cbn [process_from_js] in H.
  rewrite process_op_js_DELETE in H by reflexivity.
  rewrite (process_op_js_INSERT_stalls [[0; 99]] _ (opINSERT 0 (mkRoom "e")) 0
             (mkRoom "e") "a" fuel eq_refl eq_refl eq_refl) in H;
    [done | by vm_compute | discriminate | ].
  left. split; [reflexivity | lia].
Qed.

(** X19.  On a batch whose range bounds are list positions and whose indices
    are safe integers, [processOps] returns, and what it returns is what the
    reconciler gives in exact integers; and a result, once it is there, is
    the same for every larger number of loop turns allowed. *)
Theorem processOps_returns_on_safe_positions rgs m os :
  (Forall safe_positions os ->
   exists fuel0, forall fuel, (fuel0 <= fuel)%nat ->
     processOps_js fuel rgs m os = Some (processOps rgs m os)) /\
  (forall fuel fuel' res,
     processOps_js fuel rgs m os = Some res -> (fuel <= fuel')%nat ->
     processOps_js fuel' rgs m os = Some res).
Proof.
  split.
  - intros F. exists enough_fuel. intros fuel Hf. by apply processOps_js_exact.
  - unfold processOps_js. intros fuel fuel' res H Hf.
    destruct (process_from_js fuel rgs (init_state m) os) as [st|] eqn:E;
      [|done].
    by rewrite (process_from_js_mono _ fuel' _ _ _ _ E Hf).
Qed.

(** ** The batches of the specification with the numbers of the code *)

(** X20.  The worked example with the arithmetic of the code: from
    [{0:a,1:b,2:c,6:d,7:e,8:f}] with tracked ranges [[0,5],[6,8]], the batch
    [DELETE 7; INSERT 0 g] returns once its shift loop has made its seven
    turns and tested its condition an eighth time, with the map
    [{0:g,1:a,2:b,3:c,7:d,8:f}] (positions 4, 5 and 6 holding [undefined])
    and the update list [g]. *)
Theorem worked_example_returns :
  processOps_js 8 example_ranges example_map example_ops =
    Some (computed_map, [mkRoom "g"]) /\
  processOps_js 7 example_ranges example_map example_ops = None /\
  forall fuel, (8 <= fuel)%nat ->
    processOps_js fuel example_ranges example_map example_ops =
    Some (computed_map, [mkRoom "g"]).
Proof.
  assert (H : processOps_js 8 example_ranges example_map example_ops =
              Some (computed_map, [mkRoom "g"])) by (by vm_compute).
  split; [exact H|]. split; [by vm_compute|].
  intros fuel Hf. unfold processOps_js in *.
  destruct (process_from_js 8 example_ranges (init_state example_map)
              example_ops) as [st|] eqn:E; [|done].
  by rewrite (process_from_js_mono _ fuel _ _ _ _ E Hf).
Qed.

(** X21.  [DELETE i; INSERT i r] and [UPDATE i r] run no inner loop: they
    return whatever the index [i] (a safe integer or not) and whatever the
    map, the first with [i] mapped to the id of [r], the second with the map
    as it was, both with the update list [r]. *)
Theorem delete_insert_and_update_return rgs m i r fuel :
  processOps_js fuel rgs m [opDELETE i; opINSERT i r] =
    Some (<[i := Some (room_id r)]> m, [r]) /\
  processOps_js fuel rgs m [opUPDATE i r] = Some (m, [r]).
Proof.
  split; [|reflexivity].
  unfold processOps_js. cbn [process_from_js].
  rewrite process_op_js_DELETE by reflexivity.
  unfold process_op_js, op_DELETE, init_state. simpl.
  rewrite js_get_delete_eq. simpl.
  unfold js_set, js_delete. by rewrite insert_delete_eq.
Qed.

(** * Further properties of the engine's life cycle and of the loop *)

(** ** [stop()] and [start()] *)

(** X8.  [stop()] leaves the engine [Stopped].  Called on an engine that is
    not stopped it aborts the current request, if there is one, and forgets
    it; called on a stopped engine it does nothing at all, so a second
    [stop()] aborts nothing, and a request that the loop issued after the
    first [stop()] is left running. *)
Theorem stop_aborts_once eng :
  status (stop eng).1 = Stopped /\
  stop (stop eng).1 = ((stop eng).1, []) /\
  (status eng <> Stopped ->
   currentRequest (stop eng).1 = None /\
   (stop eng).2 = match currentRequest eng with
                  | Some r => [AbortRequest r]
                  | None => []
                  end) /\
  (status eng = Stopped -> stop eng = (eng, [])).
Proof.
  destruct eng as [rgs l st cr er]. unfold stop. simpl.
  destruct st, cr; simpl; repeat split; try done.
Qed.

Lemma stop_aborts_once_witness :
  stop (set_currentRequest (Some 3%nat)
          (set_status Syncing ex_engine)) =
  (set_status Stopped ex_engine, [AbortRequest 3%nat]) /\
  stop (set_currentRequest (Some 4%nat) (set_status Stopped ex_engine)) =
  (set_currentRequest (Some 4%nat) (set_status Stopped ex_engine), []).
Proof.
  destruct (stop_aborts_once (set_currentRequest (Some 3%nat)
                                (set_status Syncing ex_engine)))
    as (_ & _ & H & _).
  destruct H as [H1 H2]; [discriminate|].
  destruct (stop_aborts_once (set_currentRequest (Some 4%nat)
                                (set_status Stopped ex_engine)))
    as (_ & _ & _ & H3).
  split; [reflexivity | by apply H3].
Defined.

(** X9.  [start()] on an engine that is not stopped changes nothing and
    launches nothing, so calling [start()] twice launches one loop.  On a
    stopped engine it clears the error, enters [InitialSync] and launches a
    loop whose first turn issues a request without [pos], carrying the sticky
    parameters. *)
Theorem start_launches_one_loop eng h now now' ev :
  start (start eng h now).1 h now' = ((start eng h now).1, None) /\
  (status eng <> Stopped -> start eng h now = (eng, None)) /\
  (status eng = Stopped ->
   exists s,
     (start eng h now).2 = Some s /\
     status (start eng h now).1 = InitialSync /\
     error (start eng h now).1 = None /\
     this s = (start eng h now).1 /\
     requests (new_actions s (syncLoop_iter s ev)) =
       [(request_body s true, None)]).
Proof.
  destruct eng as [rgs l st cr er]. unfold start. simpl.
  destruct st; simpl; (split; [done|]); split; try done.
  intros _. eexists. split; [reflexivity|]. repeat (split; [done|]).
  rewrite iter_requests. reflexivity.
Qed.

Lemma start_launches_one_loop_witness :
  (start ex_engine ex_heap "1635724800000").2 = Some ex_loop /\
  start (start ex_engine ex_heap "1635724800000").1 ex_heap "1635724800001" =
  ((start ex_engine ex_heap "1635724800000").1, None).
Proof.
  destruct (start_launches_one_loop ex_engine ex_heap "1635724800000"
              "1635724800001" ev_network_error) as (H1 & _ & H2).
  destruct H2 as (s & Hs & _); [reflexivity|].
  split; [reflexivity | exact H1].
Defined.

(** ** A stopped loop *)

(** X10.  If the status is [Stopped] when a turn starts, the loop does nothing
    more, whatever the environment does: no sleep, no request, and [pos], the
    failure counter, the engine and the store stay as they are; the loop
    function has returned after the first such turn. *)
Theorem stopped_loop_does_nothing s evs :
  status (this s) = Stopped ->
  let s' := syncLoop_run s evs in
  trace s' = trace s /\ loop_pos s' = loop_pos s /\
  backoffCounter s' = backoffCounter s /\
  this s' = this s /\ store s' = store s /\
  (evs <> [] -> running s' = false).
Proof.
  intros Hst. destruct evs as [|ev evs]; [done|].
  intros s'. unfold s'. simpl.
  assert (Hl : live s = false).
  { unfold live. rewrite Hst. apply andb_false_r. }
  destruct (running s) eqn:Hrun.
  - rewrite syncLoop_iter_not_live by done.
    rewrite syncLoop_run_returned by done. done.
  - replace (syncLoop_iter s ev) with s
      by (unfold syncLoop_iter; by rewrite Hrun).
    rewrite syncLoop_run_returned by done. done.
Qed.

Lemma stopped_loop_does_nothing_witness :
  trace (syncLoop_run
           (syncLoop (set_status Stopped ex_engine) ex_heap (Some 5) "1")
           [ev_ok 6; ev_network_error]) = [].
Proof.
  destruct (stopped_loop_does_nothing
              (syncLoop (set_status Stopped ex_engine) ex_heap (Some 5) "1")
              [ev_ok 6; ev_network_error] eq_refl) as (H & _).
  exact H.
Defined.

(** ** What every request carries *)

Lemma iter_session s ev :
  sessionId (syncLoop_iter s ev) = sessionId s /\
  ranges (this (syncLoop_iter s ev)) = ranges (this s).
Proof.
  destruct (live s) eqn:Hl.
  - destruct (iter_live_any s ev Hl)
      as (eng & h & c & run & a1 & a2 & tl & -> & _ & _ & _ & Hr & _). done.
  - by rewrite syncLoop_iter_not_live.
Qed.

(** X11.  Every request of a loop invocation, whatever happens in between
    (failures, cancellations, [stop()]), carries the session id the loop was
    entered with and exactly one list, whose ranges are the engine's tracked
    ranges. *)
Theorem requests_carry_session_and_ranges evs : forall s,
  Forall (fun b => Req.session_id b = sessionId s /\
                   Req.rooms <$> Req.lists b = [ranges (this s)])
         (requests (new_actions s (syncLoop_run s evs))).*1.
Proof.
  induction evs as [|ev evs IH]; intros s.
  { unfold new_actions. simpl. rewrite drop_all. constructor. }
  rewrite new_actions_run_cons, requests_app, fmap_app. apply Forall_app.
  destruct (iter_session s ev) as [Hsid Hrg]. split.
  - rewrite iter_requests. destruct (live s); [|constructor].
    repeat constructor. simpl. unfold request_list. by case_bool_decide.
  - specialize (IH (syncLoop_iter s ev)). rewrite Hsid, Hrg in IH. exact IH.
Qed.

(** ** The failure counter and the sleeps *)

(** A turn whose response arrives and whose processing throws an error named
    [AbortError]. *)
Lemma iter_process_cancel s ev err :
  live s = true ->
  outcome ev = ProcessFails err ->
  String.eqb (Err.name err) "AbortError" = true ->
  backoffCounter (syncLoop_iter s ev) = 0 /\
  backoffs (new_actions s (syncLoop_iter s ev)) = [].
Proof.
  intros Hl Ho Hn. rewrite syncLoop_iter_live, Ho by done. simpl.
  destruct (try_request_eq
              (request_body s (bool_decide (status (this s) = InitialSync)))
              ev s) as (e1 & a1 & a2 & -> & Hq1 & Hq2 & _).
  match goal with |- context [env_stop AtProcess ev ?t] =>
    destruct (env_stop_eq AtProcess ev t) as (e2 & a3 & -> & Hq3 & _)
  end.
  rewrite on_error_abort by done. simpl.
  assert (Hb : backoffs (drop (length (trace s))
                 ((trace s ++ Delay 100 :: a1 ++
                   Request (request_body s (bool_decide
                              (status (this s) = InitialSync)))
                           (loop_pos s) :: a2) ++ a3)) = []).
  { rewrite <- app_assoc, drop_app_length, backoffs_app.
    rewrite <- (app_nil_r a2). rewrite backoffs_turn by done.
    by destruct Hq3 as [_ ->]. }
  unfold new_actions.
  destruct (bool_decide (status e2 = Stopped)); (split; [reflexivity | exact Hb]).
Qed.

Lemma backoff_in_bounds c :
  0 <= c <= 5 ->
  2000 <= 2 ^ Z.min (c + 1) 5 * 1000 <= 32000 /\ 0 <= Z.min (c + 1) 5 <= 5.
Proof.
  intros Hc.
  assert (c = 0 \/ c = 1 \/ c = 2 \/ c = 3 \/ c = 4 \/ c = 5) as H by lia.
  destruct H as [-> | [-> | [-> | [-> | [-> | ->]]]]]; by vm_compute.
Qed.

Lemma iter_backoff_bounded s ev :
  0 <= backoffCounter s <= 5 ->
  Forall (fun ms => 2000 <= ms <= 32000)
         (backoffs (new_actions s (syncLoop_iter s ev))) /\
  0 <= backoffCounter (syncLoop_iter s ev) <= 5.
Proof.
  intros Hc. destruct (live s) eqn:Hl.
  2: { rewrite syncLoop_iter_not_live, new_actions_returned by done.
       split; [constructor|done]. }
  destruct (outcome ev) as [err|err|resp] eqn:Ho.
  - destruct (String.eqb (Err.name err) "AbortError") eqn:Hn.
    + destruct (iter_cancel s ev Hl err Ho Hn)
        as (eng & a1 & a2 & -> & Hq1 & Hq2 & _).
      rewrite new_actions_after. rewrite <- (app_nil_r a2).
      rewrite backoffs_turn by done. split; [constructor|done].
    + destruct (iter_failure s ev Hl err Ho Hn)
        as (eng & a1 & a2 & a3 & -> & Hq1 & Hq2 & Hq3 & _).
      rewrite new_actions_after, backoffs_turn by done. simpl.
      destruct Hq3 as [_ ->]. destruct (backoff_in_bounds _ Hc) as [Hms Hk].
      split; [constructor; [exact Hms | constructor] | exact Hk].
  - destruct (String.eqb (Err.name err) "AbortError") eqn:Hn.
    + destruct (iter_process_cancel s ev err Hl Ho Hn) as [-> ->].
      split; [constructor|lia].
    + destruct (iter_process_fails s ev Hl err Ho)
        as (eng & c & run & a1 & a2 & a3 & -> & Hq1 & Hq2 & _ & _ & _ & _ & H).
      destruct (H Hn) as (-> & _ & Hb).
      rewrite new_actions_after, backoffs_turn, Hb by done.
      split; [constructor; [lia | constructor] | simpl; lia].
  - destruct (iter_responds s ev Hl resp Ho)
      as (eng & h & a1 & a2 & a3 & -> & Hq1 & Hq2 & Hq3 & _).
    rewrite new_actions_after, backoffs_turn by done.
    destruct Hq3 as [_ ->]. split; [constructor | simpl; lia].
Qed.

(** X12.  Whatever the events of a loop invocation are, the failure counter
    stays between 0 and 5 and every backoff sleep lasts between 2 and 32
    seconds. *)
Theorem backoff_sleeps_are_bounded evs : forall s,
  0 <= backoffCounter s <= 5 ->
  Forall (fun ms => 2000 <= ms <= 32000)
         (backoffs (new_actions s (syncLoop_run s evs))) /\
  0 <= backoffCounter (syncLoop_run s evs) <= 5.
Proof.
  induction evs as [|ev evs IH]; intros s Hc.
  { unfold new_actions. simpl. rewrite drop_all. split; [constructor|done]. }
  destruct (iter_backoff_bounded s ev Hc) as [Hb Hc'].
  destruct (IH _ Hc') as [Hb' Hc''].
  rewrite new_actions_run_cons, backoffs_app. split; [|exact Hc''].
  apply Forall_app. done.
Qed.

Lemma backoff_sleeps_are_bounded_witness :
  Forall (fun ms => 2000 <= ms <= 32000)
    (backoffs (new_actions ex_loop
       (syncLoop_run ex_loop (replicate 9 ev_network_error ++ [ev_ok 1])))).
Proof.
  apply (backoff_sleeps_are_bounded
           (replicate 9 ev_network_error ++ [ev_ok 1]) ex_loop).
  simpl. lia.
Defined.

(** ** The loop and the committed index map *)

Lemma stop_ref eng : roomIndexToRoomId (stop eng).1 = roomIndexToRoomId eng.
Proof. unfold stop. by repeat case_match. Qed.

Lemma env_stop_store p ev s :
  store (env_stop p ev s) = store s /\
  roomIndexToRoomId (this (env_stop p ev s)) = roomIndexToRoomId (this s).
Proof.
  unfold env_stop. case_decide; [|done].
  pose proof (stop_ref (this s)) as Href. by destruct (stop (this s)).
Qed.

Lemma try_request_store b ev s :
  store (try_request b ev s) = store s /\
  roomIndexToRoomId (this (try_request b ev s)) = roomIndexToRoomId (this s).
Proof.
  unfold try_request. destruct (sync3_throws ev).
  - simpl.
    destruct (env_stop_store AtDelay ev (emit [Delay 100] s)) as [-> ->]. done.
  - match goal with |- context [env_stop AtRequest ev ?t] =>
      destruct (env_stop_store AtRequest ev t) as [-> ->]
    end.
    simpl.
    destruct (env_stop_store AtDelay ev (emit [Delay 100] s)) as [-> ->]. done.
Qed.

Lemma on_error_store ev err s :
  store (on_error ev err s) = store s /\
  roomIndexToRoomId (this (on_error ev err s)) = roomIndexToRoomId (this s).
Proof.
  unfold on_error. destruct (String.eqb _ _).
  - by destruct (status (this s)).
  - match goal with |- context [env_stop AtBackoff ev ?t] =>
      destruct (env_stop_store AtBackoff ev t) as [-> ->]
    end. done.
Qed.

Lemma on_response_store b ev resp s :
  store (on_response b ev resp s) = processResponse (this s) (store s) resp /\
  roomIndexToRoomId (this (on_response b ev resp s)) =
    roomIndexToRoomId (this s).
Proof.
  unfold on_response.
  match goal with |- context [env_stop AtProcess ev ?t] =>
    pose proof (env_stop_store AtProcess ev t) as [H1 H2]
  end.
  destruct b; with_strategy opaque [env_stop] (simpl in *); rewrite H1, H2; done.
Qed.

Lemma processResponse_frame eng h resp l :
  is_Some (h !! l) -> processResponse eng h resp !! l = h !! l.
Proof.
  intros Hl. unfold processResponse, prepareResponse.
  rewrite processOps_h_refines. simpl.
  apply lookup_insert_ne. intros E.
  pose proof (is_fresh (dom h)) as Hf. rewrite E in Hf.
  apply Hf, elem_of_dom. done.
Qed.

Lemma iter_store s ev l :
  roomIndexToRoomId (this (syncLoop_iter s ev)) = roomIndexToRoomId (this s) /\
  (is_Some (store s !! l) -> store (syncLoop_iter s ev) !! l = store s !! l).
Proof.
  destruct (live s) eqn:Hl; [|by rewrite syncLoop_iter_not_live].
  rewrite syncLoop_iter_live by done. cbv zeta.
  pose proof (try_request_store
                (request_body s (bool_decide (status (this s) = InitialSync)))
                ev s) as [Hs Hr].
  destruct (outcome ev) as [err|err|resp].
  - destruct (on_error_store ev err
                (try_request (request_body s (bool_decide
                   (status (this s) = InitialSync))) ev s)) as [-> ->].
    by rewrite Hs, Hr.
  - match goal with |- context [on_error ev err ?t] =>
      destruct (on_error_store ev err t) as [-> ->]
    end.
    match goal with |- context [env_stop AtProcess ev ?t] =>
      destruct (env_stop_store AtProcess ev t) as [-> ->]
    end.
    simpl. by rewrite Hs, Hr.
  - match goal with |- context [on_response ?b ev resp ?t] =>
      destruct (on_response_store b ev resp t) as [-> ->]
    end.
    rewrite Hs, Hr. split; [done|]. apply processResponse_frame.
Qed.

(** X13.  The loop never commits a reconciled map: over any run of turns the
    engine keeps the same reference in [roomIndexToRoomId], and every object
    that was in the store before the run, the committed index map among them,
    is unchanged afterwards, whatever operations the responses carried. *)
Theorem loop_never_commits_index_map evs : forall s,
  roomIndexToRoomId (this (syncLoop_run s evs)) = roomIndexToRoomId (this s) /\
  (forall l, is_Some (store s !! l) ->
             store (syncLoop_run s evs) !! l = store s !! l).
Proof.
  induction evs as [|ev evs IH]; intros s; [done|]. simpl.
  destruct (IH (syncLoop_iter s ev)) as [Hr Hs].
  split.
  - rewrite Hr. apply (iter_store s ev 1%positive).
  - intros l Hl. destruct (iter_store s ev l) as [_ H].
    rewrite Hs; [by apply H|]. rewrite H by done. done.
Qed.

Lemma loop_never_commits_index_map_witness :
  store (syncLoop_run ex_loop [ev_sync_two_rooms; ev_ok 2])
    !! roomIndexToRoomId (this ex_loop) = Some ∅.
Proof.
  destruct (loop_never_commits_index_map [ev_sync_two_rooms; ev_ok 2] ex_loop)
    as [_ H].
  rewrite H; [by vm_compute|]. vm_compute. eauto.
Defined.

(** ** [stop()] during a turn *)

(** X14.  A turn that starts in [InitialSync] and whose response is processed
    ends with the status [Syncing] and the loop live, even if [stop()] was
    called while the turn was suspended: the [Stopped] that [stop()] had set
    is overwritten.  A turn that starts in [Syncing] keeps the [Stopped] of a
    [stop()] called during its delay, its request or its processing. *)
Theorem stop_during_first_sync_is_overwritten s ev resp :
  live s = true -> outcome ev = Responds resp ->
  (status (this s) = InitialSync ->
   status (this (syncLoop_iter s ev)) = Syncing /\
   live (syncLoop_iter s ev) = true) /\
  (status (this s) = Syncing ->
   stopped_during [AtDelay; AtRequest; AtProcess] ev = true ->
   status (this (syncLoop_iter s ev)) = Stopped /\
   live (syncLoop_iter s ev) = false).
Proof.
  intros Hl Ho.
  destruct (iter_responds s ev Hl resp Ho)
    as (eng & h & a1 & a2 & a3 & -> & _ & _ & _ & _ & Hs).
  split.
  - intros Hi. rewrite Hi, bool_decide_eq_true_2 in Hs by done.
    simpl. split; [done|]. apply live_after. by rewrite Hs.
  - intros Hi Hstop. rewrite Hi, bool_decide_eq_false_2 in Hs by done.
    unfold status_after in Hs. rewrite Hstop in Hs.
    simpl. split; [done|]. unfold live. simpl. by rewrite Hs.
Qed.

Lemma stop_during_first_sync_is_overwritten_witness :
  status (this (syncLoop_iter ex_loop (ev_ok_stopped_in_delay 1))) = Syncing /\
  (requests (new_actions ex_loop
     (syncLoop_run ex_loop [ev_ok_stopped_in_delay 1; ev_ok 2]))).*2
  = [None; Some 1].
Proof.
  destruct (stop_during_first_sync_is_overwritten ex_loop
              (ev_ok_stopped_in_delay 1)
              {| ops := []; counts := []; pos := 1 |} eq_refl eq_refl)
    as [H _].
  destruct H as [H1 H2]; [reflexivity|].
  split; [exact H1 | by vm_compute].
Defined.

(** ** A loop that is not stopped *)

Lemma run_no_stop evs : forall s,
  live s = true -> Forall (fun ev => stop_at ev = None) evs ->
  live (syncLoop_run s evs) = true /\
  length (requests (new_actions s (syncLoop_run s evs))) = length evs /\
  loop_pos (syncLoop_run s evs) = last_pos (loop_pos s) evs.
Proof.
  induction evs as [|ev evs IH]; intros s Hl Hall.
  { unfold new_actions. simpl. by rewrite drop_all. }
  apply Forall_cons in Hall as [Hstop Hall].
  pose proof (iter_no_stop_live s ev Hl Hstop) as Hl'.
  destruct (IH _ Hl' Hall) as (H1 & H2 & H3).
  change (syncLoop_run s (ev :: evs))
    with (syncLoop_run (syncLoop_iter s ev) evs) at 1 3.
  split; [done|]. split.
  - rewrite new_actions_run_cons, requests_app, length_app, H2.
    by rewrite iter_requests, Hl.
  - rewrite H3. simpl. f_equal.
    destruct (iter_live_any s ev Hl)
      as (eng & h & c & run & a1 & a2 & tl & -> & _). done.
Qed.

(** X15.  As long as [stop()] is not called the loop goes on, whatever the
    requests end in (errors, cancellations, throws while processing): after
    any number of turns it is still live, and it has issued exactly one
    request per turn. *)
Theorem loop_runs_until_stopped s evs :
  live s = true -> Forall (fun ev => stop_at ev = None) evs ->
  live (syncLoop_run s evs) = true /\
  length (requests (new_actions s (syncLoop_run s evs))) = length evs.
Proof.
  intros Hl Hall. destruct (run_no_stop evs s Hl Hall) as (H1 & H2 & _). done.
Qed.

Lemma loop_runs_until_stopped_witness :
  live (syncLoop_run ex_loop
          [ev_network_error; ev_abort; ev_ok 1; ev_network_error]) = true.
Proof.
  apply (loop_runs_until_stopped ex_loop
           [ev_network_error; ev_abort; ev_ok 1; ev_network_error]).
  - reflexivity.
  - repeat constructor.
Defined.

(** X16.  In a loop during which [stop()] is not called, [pos] after any run
    of turns is the [pos] of the last response that was processed, and is the
    [pos] the run started with if no response was processed; failures and
    cancellations in between leave it alone. *)
Theorem pos_is_that_of_last_response s evs :
  live s = true -> Forall (fun ev => stop_at ev = None) evs ->
  loop_pos (syncLoop_run s evs) = last_pos (loop_pos s) evs.
Proof.
  intros Hl Hall. destruct (run_no_stop evs s Hl Hall) as (_ & _ & H). done.
Qed.

Lemma pos_is_that_of_last_response_witness :
  loop_pos (syncLoop_run ex_loop
              [ev_ok 4; ev_network_error; ev_ok 9; ev_abort; ev_network_error])
  = Some 9.
Proof.
  rewrite (pos_is_that_of_last_response ex_loop
             [ev_ok 4; ev_network_error; ev_ok 9; ev_abort; ev_network_error]).
  - reflexivity.
  - reflexivity.
  - repeat constructor.
Defined.

(** ** The request handle *)

(** X22.  [currentRequest] after a turn of a live loop.  If [stop()] is not
    called during the turn: when [hsApi.sync3] threw, [currentRequest] is
    what it was before the turn (nothing was assigned, so the handle of an
    earlier turn stays); otherwise it is the handle of the turn's request.
    If [stop()] is called while the loop waits for the response, that handle
    is aborted and [currentRequest] is cleared. *)
Theorem request_handle_after_turn s ev :
  live s = true ->
  (stop_at ev = None ->
   currentRequest (this (syncLoop_iter s ev)) =
   if sync3_throws ev then currentRequest (this s)
   else Some (S (length (trace s)))) /\
  (stop_at ev = Some AtRequest -> sync3_throws ev = false ->
   AbortRequest (S (length (trace s))) ∈ new_actions s (syncLoop_iter s ev) /\
   currentRequest (this (syncLoop_iter s ev)) = None).
Proof.
  intros Hl. rewrite syncLoop_iter_live by done. cbv zeta.
  apply live_spec in Hl as [Hrun Hns].
  destruct s as [eng h p c sid run tr]. destruct eng as [rg l st cr er].
  simpl in *. subst run. split.
  - intros Hstop. unfold try_request, on_error, on_response, sync3_throws.
    rewrite !env_stop_none by done.
    destruct (outcome ev) as [err|err|resp]; simpl;
      [destruct (call_throws ev); simpl| |];
      try destruct (String.eqb _ _); simpl; rewrite ?env_stop_none by done;
      simpl; rewrite ?length_app; simpl.
    all: try (destruct st; simpl; try done; f_equal; lia).
    all: try (f_equal; lia).
  - intros Hstop Hthrow. unfold try_request. rewrite Hthrow.
    unfold env_stop. rewrite Hstop. simpl.
    unfold stop, on_error, on_response, env_stop. rewrite Hstop.
    rewrite length_app. simpl.
    replace (length tr + 1)%nat with (S (length tr)) by lia.
    destruct st; try done; simpl;
      (destruct (outcome ev) as [err|err|resp]; simpl;
       try destruct (String.eqb _ _); simpl; (split; [|done]);
       unfold new_actions; simpl; rewrite <- ?app_assoc;
       rewrite drop_app_length; simpl;
       rewrite ?elem_of_cons, ?elem_of_app, ?elem_of_cons; tauto).
Qed.

Lemma request_handle_after_turn_witness :
  currentRequest (this (syncLoop_iter ex_loop ev_call_throws)) = None /\
  currentRequest (this (syncLoop_iter ex_loop ev_network_error)) = Some 1%nat /\
  currentRequest (this (syncLoop_run ex_loop [ev_ok 1; ev_call_throws])) =
    Some 1%nat /\
  AbortRequest 1 ∈ new_actions ex_loop (syncLoop_iter ex_loop ev_abort_by_stop).
Proof.
  destruct (request_handle_after_turn ex_loop ev_call_throws eq_refl)
    as [H1 _].
  destruct (request_handle_after_turn ex_loop ev_network_error eq_refl)
    as [H2 _].
  destruct (request_handle_after_turn (syncLoop_iter ex_loop (ev_ok 1))
              ev_call_throws eq_refl) as [H3 _].
  destruct (request_handle_after_turn ex_loop ev_abort_by_stop eq_refl)
    as [_ H4].
  split; [exact (H1 eq_refl)|]. split; [exact (H2 eq_refl)|].
  split; [exact (H3 eq_refl)|]. exact (proj1 (H4 eq_refl eq_refl)).
Defined.
